(** * Minibatch computation-dependency builder (large_graphs.ipynb)

    A shallow embedding of the block samplers of the notebook
    [large_graphs/large_graphs.ipynb]: [FullNeighborBlockSampler],
    [NeighborSampler], [SAGENet.propagate], [SAGEConvBipartite.forward] and
    [inference_with_sagenet].  The notebook drives three graph primitives
    ([in_subgraph], [sample_neighbors], [to_block]) whose code is not part of
    the notebook; they are modelled from the design document (sections 4.1 to
    4.3) and checked against the outputs recorded in the notebook cells. *)

From Stdlib Require Import List Arith ZArith Lia Bool Permutation.
Import ListNotations.

Set Implicit Arguments.

(** ** Failures and the ambient state

    Every call runs against the process-wide random source and may raise.
    [OutOfRange] and [InvalidFanoutConfig] are the typed conditions of the
    design document; [IndexError] and [ValueError] are the Python exceptions
    of tensor indexing and of [range] with a zero step; [DGLError] is raised
    when node data is set with a number of rows that is not the number of
    nodes, and [RuntimeError] by [torch.cat] on tensors whose row counts
    differ or on an empty list of tensors. *)

Inductive error : Type :=
| OutOfRange
| InvalidFanoutConfig
| IndexError
| ValueError
| DGLError
| RuntimeError.

(** Modelled from the spec: the random source consumed by fixed-fanout
    selection, reproducible given a fixed seed: a generator ([rs_gen i] is
    the i-th raw draw) and the number of draws consumed so far. *)
Record RandomSource : Type := mkRandomSource {
  rs_gen : nat -> nat;
  rs_pos : nat
}.

Definition M (A : Type) : Type := RandomSource -> error + (A * RandomSource).

Definition ret {A} (a : A) : M A := fun r => inr (a, r).

Definition raise {A} (e : error) : M A := fun _ => inl e.

Definition bind {A B} (m : M A) (k : A -> M B) : M B :=
  fun r => match m r with
           | inl e => inl e
           | inr (a, r') => k a r'
           end.

Notation "x <- c1 ;; c2" := (bind c1 (fun x => c2))
  (at level 61, c1 at next level, right associativity).

Definition lift {A} (x : error + A) : M A :=
  match x with
  | inl e => raise e
  | inr a => ret a
  end.

Definition lift_index {A} (x : option A) : M A :=
  match x with
  | None => raise IndexError
  | Some a => ret a
  end.

Fixpoint mapM {A B} (f : A -> M B) (l : list A) : M (list B) :=
  match l with
  | [] => ret []
  | a :: t => b <- f a ;; bs <- mapM f t ;; ret (b :: bs)
  end.

(** Uniform draw below [n] from the random source. *)
Definition rand_below (n : nat) : M nat :=
  fun r => inr (rs_gen r (rs_pos r) mod n,
                mkRandomSource (rs_gen r) (S (rs_pos r))).

(** ** Graph store (design document, 4.1) *)

Record Graph : Type := mkGraph {
  number_of_nodes : nat;
  all_edges : list (nat * nat)      (* (source, destination), by edge id *)
}.

Definition wf_graph (g : Graph) : Prop :=
  Forall (fun e => fst e < number_of_nodes g /\ snd e < number_of_nodes g)
         (all_edges g).

(** Modelled from the spec: the incident (incoming) edges of a node, as
    (neighbor id, edge id) pairs in edge-id order; the adjacency index of
    the graph library is not part of the notebook. *)
Definition incident_edges (g : Graph) (v : nat) : list (nat * nat) :=
  map (fun p => (fst (snd p), fst p))
      (filter (fun p => snd (snd p) =? v)
              (combine (seq 0 (length (all_edges g))) (all_edges g))).

(** Modelled from the spec: [neighbors_of] of the Graph Store, which fails
    with [OutOfRange] when the node id is not below the node count. *)
Definition neighbors_of (g : Graph) (v : nat) : error + list (nat * nat) :=
  if v <? number_of_nodes g then inr (incident_edges g v) else inl OutOfRange.

Definition in_degree (g : Graph) (v : nat) : nat :=
  length (filter (fun e => snd e =? v) (all_edges g)).

(** ** Neighbor selectors (design document, 4.2) *)

Definition selector : Type := nat -> list (nat * nat) -> M (list (nat * nat)).

Fixpoint remove_nth {A} (i : nat) (l : list A) : list A :=
  match l, i with
  | [], _ => []
  | _ :: t, 0 => t
  | x :: t, S i' => x :: remove_nth i' t
  end.

(** Modelled from the spec: [k] draws without replacement (a partial
    shuffle over the incident-edge index range, driven by the random
    source). *)
Fixpoint draw {A} (k : nat) (pool : list A) : M (list A) :=
  match k with
  | 0 => ret []
  | S k' =>
      match pool with
      | [] => ret []
      | _ :: _ =>
          i <- rand_below (length pool) ;;
          match nth_error pool i with
          | None => ret []
          | Some x => rest <- draw k' (remove_nth i pool) ;; ret (x :: rest)
          end
      end
  end.

(** Modelled from the spec: the Full selector returns all incident edges
    unchanged. *)
Definition Full : selector := fun _ es => ret es.

(** Modelled from the spec: FixedFanout(k) returns all incident edges when
    there are at most [k] of them, and otherwise draws [k] distinct ones.
    The fanout is a Python integer; the design gives a negative fanout no
    meaning (it is a misconfiguration), the number of draws [Z.to_nat k] is
    then zero, and the properties below that state what a fanout selects,
    or that sampling succeeds, assume it non-negative. *)
Definition FixedFanout (k : Z) : selector :=
  fun _ es =>
    if (Z.of_nat (length es) <=? k)%Z then ret es
    else draw (Z.to_nat k) es.

(** ** Block builder (design document, 4.3) *)

Record Block : Type := mkBlock {
  src_global_ids : list nat;         (* block.srcdata[dgl.NID] *)
  dst_global_ids : list nat;         (* block.dstdata[dgl.NID] *)
  block_edges : list (nat * nat)     (* (local source, local destination) *)
}.

Definition number_of_dst_nodes (b : Block) : nat := length (dst_global_ids b).

Definition number_of_src_nodes (b : Block) : nat := length (src_global_ids b).

Definition mem (x : nat) (l : list nat) : bool := existsb (Nat.eqb x) l.

(** Modelled from the spec: the insertion-ordered id table of the Block
    Builder; [append_new acc l] enters the ids of [l] that are not yet in
    the table, in first-seen order, each exactly once. *)
Fixpoint append_new (acc l : list nat) : list nat :=
  match l with
  | [] => acc
  | x :: t => append_new (if mem x acc then acc else acc ++ [x]) t
  end.

(** Modelled from the spec: deduplication, order preserved by first
    occurrence. *)
Definition dedup (l : list nat) : list nat := append_new [] l.

(** Modelled from the spec: the local-id lookup (global id to local
    source index), the position of the id in the table (the length of the
    table when the id is absent). *)
Fixpoint index_of (x : nat) (l : list nat) : nat :=
  match l with
  | [] => 0
  | y :: t => if x =? y then 0 else S (index_of x t)
  end.

(** Modelled from the spec: step 1 of the Block Builder.  For every node,
    the incident edges are read from the Graph Store and filtered through
    the selector; the kept edges are returned as (source, destination)
    pairs of global ids, grouped by destination in node order. *)
Fixpoint gather (g : Graph) (sel : selector) (nodes : list nat)
  : M (list (nat * nat)) :=
  match nodes with
  | [] => ret []
  | v :: vs =>
      inc <- lift (neighbors_of g v) ;;
      chosen <- sel v inc ;;
      rest <- gather g sel vs ;;
      ret (map (fun p => (fst p, v)) chosen ++ rest)
  end.

(** Modelled from the spec: [dgl.in_subgraph], all edges going into one of
    the given nodes (Full selection over the deduplicated seeds). *)
Definition in_subgraph (g : Graph) (seeds : list nat) : M (list (nat * nat)) :=
  gather g Full (dedup seeds).

(** Modelled from the spec: [dgl.sampling.sample_neighbors], FixedFanout
    selection over the deduplicated seeds. *)
Definition sample_neighbors (g : Graph) (seeds : list nat) (fanout : Z)
  : M (list (nat * nat)) :=
  gather g (FixedFanout fanout) (dedup seeds).

(** Modelled from the spec: [dgl.to_block], steps 2 to 4 of the Block
    Builder.  The destination ids are the deduplicated seeds; the source
    ids are the id table seeded with the seeds and extended with the source
    endpoints of the kept edges; every kept edge is emitted with both
    endpoints mapped through the source-side lookup. *)
Definition to_block (sampled_graph : list (nat * nat)) (seeds : list nat)
  : Block :=
  let dst := dedup seeds in
  let src := append_new (dedup seeds) (map fst sampled_graph) in
  mkBlock src dst
          (map (fun e => (index_of (fst e) src, index_of (snd e) src))
               sampled_graph).

(** [print_block_info]: the input ids, the output ids, and the edge
    endpoints mapped back to ids of the original graph. *)
Definition print_block_info (sampled_block : Block)
  : list nat * list nat * (list nat * list nat) :=
  let sampled_input_nodes := src_global_ids sampled_block in
  let sampled_output_nodes := dst_global_ids sampled_block in
  (sampled_input_nodes, sampled_output_nodes,
   (map (fun e => nth (fst e) sampled_input_nodes 0) (block_edges sampled_block),
    map (fun e => nth (snd e) sampled_output_nodes 0) (block_edges sampled_block))).

(** The block's edges as (source, destination) pairs of global ids. *)
Definition global_edges (b : Block) : list (nat * nat) :=
  let '(_, _, (us, vs)) := print_block_info b in combine us vs.

Definition block_in_degree (b : Block) (j : nat) : nat :=
  length (filter (fun e => snd e =? j) (block_edges b)).

(** ** Samplers *)

Module FullNeighborBlockSampler.

Record t : Type := init { g : Graph; num_layers : nat }.

(** One iteration of the loop of [sample]; the loop state is the current
    [seeds] and the list [blocks] assembled so far. *)
Definition step (self : t) (st : list nat * list Block)
  : M (list nat * list Block) :=
  let '(seeds, blocks) := st in
  sampled_graph <- in_subgraph (g self) seeds ;;
  let sampled_block := to_block sampled_graph seeds in
  let seeds := src_global_ids sampled_block in
  ret (seeds, sampled_block :: blocks).

Fixpoint iterate (self : t) (n : nat) (st : list nat * list Block)
  : M (list nat * list Block) :=
  match n with
  | 0 => ret st
  | S n' => st' <- step self st ;; iterate self n' st'
  end.

Definition sample (self : t) (seeds : list nat) : M (list Block) :=
  st <- iterate self (num_layers self) (seeds, []) ;;
  ret (snd st).

(** The value of [seeds] at the start of the iteration that builds
    [chain[i]]: the blocks are prepended, so [chain[i]] is built by
    iteration [num_layers - 1 - i]. *)
Definition frontier (self : t) (seeds : list nat) (i : nat) : M (list nat) :=
  st <- iterate self (num_layers self - 1 - i) (seeds, []) ;;
  ret (fst st).

End FullNeighborBlockSampler.

Module NeighborSampler.

Record t : Type := mk { g : Graph; num_fanouts : list Z }.

(** [__init__] stores its two arguments. *)
Definition init (g : Graph) (num_fanouts : list Z) : error + t :=
  inr (mk g num_fanouts).

Definition step (self : t) (fanout : Z) (st : list nat * list Block)
  : M (list nat * list Block) :=
  let '(seeds, blocks) := st in
  sampled_graph <- sample_neighbors (g self) seeds fanout ;;
  let sampled_block := to_block sampled_graph seeds in
  let seeds := src_global_ids sampled_block in
  ret (seeds, sampled_block :: blocks).

Fixpoint iterate (self : t) (fanouts : list Z) (st : list nat * list Block)
  : M (list nat * list Block) :=
  match fanouts with
  | [] => ret st
  | fanout :: rest => st' <- step self fanout st ;; iterate self rest st'
  end.

(** [seeds = torch.LongTensor(seeds)] only changes the container; the
    loop runs over [reversed(self.num_fanouts)]. *)
Definition sample (self : t) (seeds : list nat) : M (list Block) :=
  st <- iterate self (rev (num_fanouts self)) (seeds, []) ;;
  ret (snd st).

Definition frontier (self : t) (seeds : list nat) (i : nat) : M (list nat) :=
  st <- iterate self (firstn (length (num_fanouts self) - 1 - i)
                             (rev (num_fanouts self))) (seeds, []) ;;
  ret (fst st).

End NeighborSampler.

(** The common shape of the two sampler loops, used to reason about both:
    one selector per iteration, the state being [(seeds, blocks)]. *)
Fixpoint grow (g : Graph) (sels : list selector) (st : list nat * list Block)
  : M (list nat * list Block) :=
  match sels with
  | [] => ret st
  | sel :: rest =>
      sampled_graph <- gather g sel (dedup (fst st)) ;;
      let sampled_block := to_block sampled_graph (fst st) in
      grow g rest (src_global_ids sampled_block, sampled_block :: snd st)
  end.

(** ** The notebook's example graph *)

(** [dgl.graph(nx.Graph(pairs))]: nodes in order of first appearance, and
    for every node its adjacency in insertion order, both directions. *)
Definition nx_nodes (pairs : list (nat * nat)) : list nat :=
  dedup (flat_map (fun e => [fst e; snd e]) pairs).

Definition nx_adjacency (pairs : list (nat * nat)) (u : nat) : list (nat * nat) :=
  flat_map (fun e => if fst e =? u then [(u, snd e)]
                     else if snd e =? u then [(u, fst e)] else [])
           pairs.

Definition graph_of_nx (pairs : list (nat * nat)) : Graph :=
  mkGraph (length (nx_nodes pairs))
          (flat_map (nx_adjacency pairs) (nx_nodes pairs)).

Definition example_graph : Graph :=
  graph_of_nx
    [(0, 2); (0, 4); (0, 6); (0, 7); (0, 8); (0, 9); (0, 10);
     (1, 2); (1, 3); (1, 5); (2, 3); (2, 4); (2, 6); (3, 5);
     (3, 8); (4, 7); (8, 9); (8, 11); (9, 10); (9, 11)].

Definition sampled_node_batch : list nat := [4; 6].

Definition run {A} (m : M A) (r : RandomSource) : option A :=
  match m r with
  | inl _ => None
  | inr (a, _) => Some a
  end.

Definition rs0 : RandomSource := mkRandomSource (fun i => 7 * i + 3) 0.

(** ** Layers on blocks and layer-wise inference

    A feature row has an abstract type [T]; [mean] is the mean aggregation
    of a list of messages, taken in edge order.  The design treats the
    numerical content of a layer as external; only which rows are combined
    is modelled. *)

(** A layer is given by its node update: from the output node's own row
    and the aggregated neighbor row to [F.relu(W(cat[x_dst, x_neigh]))]. *)
Definition Layer (T : Type) : Type := T -> T -> T.

(** [h[ids]]: row gathering. *)
Definition index_rows {T} (h : list T) (ids : list nat) : M (list T) :=
  mapM (fun i => lift_index (nth_error h i)) ids.

Module SAGEConvBipartite.
Section Forward.
Variable T : Type.
Variable mean : list T -> T.

(** [forward(g, (x_src, x_dst))]: [srcdata['x'] = x_src], which needs one
    row per input node; then [update_all(copy_u, mean)], which gives every
    output node the mean of the rows sent along its incoming edges; then
    [torch.cat([x_dst, x_neigh], -1)], which needs one row of [x_dst] per
    output node; then the update [F.relu(W(...))] of every row. *)
Definition forward (layer : Layer T) (g : Block) (x : list T * list T)
  : M (list T) :=
  let '(x_src, x_dst) := x in
  if length x_src =? number_of_src_nodes g then
    x_neigh <- mapM (fun j =>
                       messages <- index_rows x_src
                                     (map fst (filter (fun e => snd e =? j)
                                                      (block_edges g))) ;;
                       ret (mean messages))
                    (seq 0 (number_of_dst_nodes g)) ;;
    if length x_dst =? number_of_dst_nodes g then
      ret (map (fun p => layer (fst p) (snd p)) (combine x_dst x_neigh))
    else raise RuntimeError
  else raise DGLError.
End Forward.
End SAGEConvBipartite.

Module SAGENet.
Section Net.
Variable T : Type.
Variable mean : list T -> T.

Record t : Type := mk { convs : list (Layer T) }.

(** [propagate]: the layers in [convs] are mean-aggregating GraphSAGE
    layers, whose computation on a block is [SAGEConvBipartite.forward]. *)
Definition propagate (block : Block) (h : list T) (layer : Layer T)
  : M (list T) :=
  let h_dst := firstn (number_of_dst_nodes block) h in
  SAGEConvBipartite.forward mean layer block (h, h_dst).

Fixpoint forward_loop (pairs : list (Layer T * Block)) (h : list T)
  : M (list T) :=
  match pairs with
  | [] => ret h
  | (layer, block) :: rest =>
      h' <- propagate block h layer ;; forward_loop rest h'
  end.

Definition forward (self : t) (blocks : list Block)
           (input_features : list T) : M (list T) :=
  forward_loop (combine (convs self) blocks) input_features.
End Net.
End SAGENet.

(** [range(0, stop, step)] for a positive step. *)
Definition range_step (stop step : nat) : list nat :=
  map (fun i => i * step) (seq 0 ((stop + step - 1) / step)).

Section Inference.

Variable T : Type.
Variable mean : list T -> T.

(** The inner loop of [inference_with_sagenet] over the batch starts. *)
Fixpoint inference_batches (block_sampler : FullNeighborBlockSampler.t)
         (conv : Layer T) (h : list T) (node_ids : list nat)
         (batch_size : nat) (starts : list nat) (new_h_list : list (list T))
  : M (list (list T)) :=
  match starts with
  | [] => ret new_h_list
  | batch_start :: rest =>
      blocks <- FullNeighborBlockSampler.sample block_sampler
                  (firstn batch_size (skipn batch_start node_ids)) ;;
      block <- lift_index (nth_error blocks 0) ;;
      let input_node_ids := src_global_ids block in
      h_input <- index_rows h input_node_ids ;;
      new_h <- SAGENet.propagate mean block h_input conv ;;
      inference_batches block_sampler conv h node_ids batch_size rest
                        (new_h_list ++ [new_h])
  end.

(** [torch.cat(tensors)] along the rows; it raises on an empty list. *)
Definition torch_cat (tensors : list (list T)) : M (list T) :=
  match tensors with
  | [] => raise RuntimeError
  | _ :: _ => ret (concat tensors)
  end.

(** The outer loop over the layers; [range(0, N, batch_size)] is evaluated
    once per layer and raises when the step is zero. *)
Fixpoint inference_layers (block_sampler : FullNeighborBlockSampler.t)
         (graph : Graph) (batch_size : nat) (convs : list (Layer T))
         (h : list T) : M (list T) :=
  match convs with
  | [] => ret h
  | conv :: rest =>
      let node_ids := seq 0 (number_of_nodes graph) in
      if batch_size =? 0 then raise ValueError
      else
        new_h_list <- inference_batches block_sampler conv h node_ids
                        batch_size
                        (range_step (number_of_nodes graph) batch_size) [] ;;
        h' <- torch_cat new_h_list ;;
        inference_layers block_sampler graph batch_size rest h'
  end.

Definition inference_with_sagenet (sagenet : SAGENet.t T) (graph : Graph)
           (input_features : list T) (batch_size : nat) : M (list T) :=
  let block_sampler := FullNeighborBlockSampler.init graph 1 in
  let h := input_features in
  inference_layers block_sampler graph batch_size (SAGENet.convs sagenet) h.

(** The whole graph seen as one bipartite structure: every node on both
    sides under its own id, every edge of the graph. *)
Definition graph_as_block (graph : Graph) : Block :=
  mkBlock (seq 0 (number_of_nodes graph)) (seq 0 (number_of_nodes graph))
          (all_edges graph).

(** One application of a layer over the whole graph, with no batching
    ([h = layer(g, h)] of [GraphSAGEModel.forward]). *)
Definition layer_on_graph (layer : Layer T) (graph : Graph) (h : list T)
  : M (list T) :=
  SAGEConvBipartite.forward mean layer (graph_as_block graph) (h, h).

End Inference.

(** ** Vocabulary of the properties *)

(** A block chain returned by one of the two samplers. *)
Definition full_chain (self : FullNeighborBlockSampler.t) (seeds : list nat)
           (chain : list Block) : Prop :=
  exists r r', FullNeighborBlockSampler.sample self seeds r = inr (chain, r').

Definition neighbor_chain (self : NeighborSampler.t) (seeds : list nat)
           (chain : list Block) : Prop :=
  exists r r', NeighborSampler.sample self seeds r = inr (chain, r').

Definition sampled_chain (chain : list Block) : Prop :=
  (exists self seeds, full_chain self seeds chain) \/
  (exists self seeds, neighbor_chain self seeds chain).

(** The outcome of a call, replayed at another state of the random source
    that the call leaves untouched. *)
Definition restate {A} (x : error + (A * RandomSource)) (r : RandomSource)
  : error + (A * RandomSource) :=
  match x with
  | inl e => inl e
  | inr (a, _) => inr (a, r)
  end.

Definition stateless {A} (m : M A) : Prop :=
  forall r1 r2, m r2 = restate (m r1) r2.

Definition empty_block : Block := mkBlock [] [] [].

(** The edges going into a set of nodes, grouped by destination. *)
Definition in_edges (g : Graph) (nodes : list nat) : list (nat * nat) :=
  flat_map (fun v => filter (fun e => snd e =? v) (all_edges g)) nodes.

(** The five edges of the notebook's first example. *)
Definition edges_into_4_and_6 : list (nat * nat) :=
  [(0, 4); (2, 4); (7, 4); (0, 6); (2, 6)].

Definition five_edge_graph : Graph := mkGraph 8 edges_into_4_and_6.

(** The update of one node over the whole graph: its own row and the mean
    of the rows of its in-neighbors, in edge order. *)
Definition node_update {T} (mean : list T -> T) (layer : Layer T)
           (graph : Graph) (h : list T) (v : nat) : M T :=
  own <- lift_index (nth_error h v) ;;
  messages <- index_rows h
                (map fst (filter (fun e => snd e =? v) (all_edges graph))) ;;
  ret (layer own (mean messages)).

(** The update of one output node of a block: its own row and the mean of
    the rows sent along its incoming edges, in edge order. *)
Definition block_node_update {T} (mean : list T -> T) (layer : Layer T)
           (g : Block) (x_src x_dst : list T) (j : nat) : M T :=
  own <- lift_index (nth_error x_dst j) ;;
  messages <- index_rows x_src
                (map fst (filter (fun e => snd e =? j) (block_edges g))) ;;
  ret (layer own (mean messages)).

(** The body of the batch loop of [inference_with_sagenet] for one batch. *)
Definition batch_output {T} (mean : list T -> T) (conv : Layer T)
           (graph : Graph) (h : list T) (batch : list nat) : M (list T) :=
  blocks <- FullNeighborBlockSampler.sample
              (FullNeighborBlockSampler.init graph 1) batch ;;
  block <- lift_index (nth_error blocks 0) ;;
  h_input <- index_rows h (src_global_ids block) ;;
  SAGENet.propagate mean block h_input conv.

(** The two blocks recorded in the notebook for the seeds 4 and 6 (cells 5
    and 10), in local ids. *)
Definition block_of_layer_2 : Block :=
  mkBlock [4; 6; 0; 2; 7] [4; 6] [(2, 0); (3, 0); (4, 0); (2, 1); (3, 1)].

Definition block_of_layer_1 : Block :=
  mkBlock [4; 6; 0; 2; 7; 8; 9; 10; 1; 3] [4; 6; 0; 2; 7]
          [(2, 0); (3, 0); (4, 0); (2, 1); (3, 1); (3, 2); (0, 2); (1, 2);
           (4, 2); (5, 2); (6, 2); (7, 2); (2, 3); (0, 3); (1, 3); (8, 3);
           (9, 3); (2, 4); (0, 4)].

(** A selector that always answers, with a sub-collection of the incident
    edges it was given. *)
Definition good_selector (sel : selector) : Prop :=
  forall v es r, exists l r', sel v es r = inr (l, r') /\ incl l es.

(** ** The whole-graph model, the minibatch step and the constructors *)

Module GraphSAGEModel.
Section Model.
Variable T : Type.
Variable mean : list T -> T.

Record t : Type := mk { layers : list (Layer T) }.

(** [forward(g, features)]: [h = features], then [h = layer(g, h)] for
    every layer in turn. *)
Fixpoint forward_loop (layers : list (Layer T)) (g : Graph) (h : list T)
  : M (list T) :=
  match layers with
  | [] => ret h
  | layer :: rest =>
      h' <- layer_on_graph mean layer g h ;; forward_loop rest g h'
  end.

Definition forward (self : t) (g : Graph) (features : list T) : M (list T) :=
  forward_loop (layers self) g features.
End Model.
End GraphSAGEModel.

Section Minibatch.

Variable T : Type.
Variable Label : Type.
Variable mean : list T -> T.

(** The forward pass on a sampled chain (cells 12 and 15):
    [sampled_input_nodes = sampled_blocks[0].srcdata[dgl.NID]], the input
    rows are gathered for these ids, and the model runs on the blocks. *)
Definition minibatch_forward (sagenet : SAGENet.t T)
           (features : list T) (sampled_blocks : list Block) : M (list T) :=
  first_block <- lift_index (nth_error sampled_blocks 0) ;;
  let sampled_input_nodes := src_global_ids first_block in
  sampled_input_features <- index_rows features sampled_input_nodes ;;
  SAGENet.forward mean sagenet sampled_blocks sampled_input_features.

(** The body of the training loop for one batch, up to the loss (cell 23):
    the predictions of the model and the labels of the output nodes of
    the last block ([blocks[-1]]). *)
Definition training_batch (model : SAGENet.t T) (features : list T)
           (labels : list Label) (blocks : list Block)
  : M (list T * list Label) :=
  first_block <- lift_index (nth_error blocks 0) ;;
  let input_nodes := src_global_ids first_block in
  last_block <- lift_index (nth_error blocks (length blocks - 1)) ;;
  let output_nodes := dst_global_ids last_block in
  input_features <- index_rows features input_nodes ;;
  output_labels <- index_rows labels output_nodes ;;
  output_predictions <- SAGENet.forward mean model blocks input_features ;;
  ret (output_predictions, output_labels).

End Minibatch.

(** The batches of the inner loop of [inference_with_sagenet]:
    [node_ids[batch_start:batch_start+batch_size]] for every
    [batch_start] in [range(0, N, batch_size)]. *)
Definition inference_node_batches (number_of_nodes batch_size : nat)
  : list (list nat) :=
  map (fun batch_start =>
         firstn batch_size (skipn batch_start (seq 0 number_of_nodes)))
      (range_step number_of_nodes batch_size).

Module Constructors.
Section Args.

(** The arguments of one [SAGEConv(...)] call: the feature sizes, the
    aggregator type, the feature dropout and the activation (absent when
    the call leaves it at its default). *)
Variables Agg Drop Act : Type.

Record SAGEConvArgs : Type := mkArgs {
  conv_in_feats : nat;
  conv_out_feats : nat;
  conv_aggregator_type : Agg;
  conv_feat_drop : option Drop;
  conv_activation : option Act
}.

(** [GraphSAGEModel.__init__]: the input layer, [n_layers - 1] hidden
    layers and the output layer, which has no activation. *)
Definition GraphSAGEModel_init (in_feats n_hidden out_dim : nat) (n_layers : Z)
           (activation : Act) (dropout : Drop) (aggregator_type : Agg)
  : list SAGEConvArgs :=
  [mkArgs in_feats n_hidden aggregator_type (Some dropout) (Some activation)]
  ++ repeat (mkArgs n_hidden n_hidden aggregator_type (Some dropout)
                    (Some activation))
            (Z.to_nat (n_layers - 1))
  ++ [mkArgs n_hidden out_dim aggregator_type (Some dropout) None].

(** [SAGENet.__init__]: ['mean'] aggregation throughout; a single layer
    when [n_layers == 1], otherwise a first layer, [n_layers - 2] hidden
    layers (all with [F.relu]) and a last layer without activation.
    [hidden_feats] defaults to [out_feats]. *)
Definition SAGENet_init (mean_type : Agg) (F_relu : Act) (n_layers : Z)
           (in_feats out_feats : nat) (hidden_feats : option nat)
  : list SAGEConvArgs :=
  let hidden_feats := match hidden_feats with
                      | None => out_feats
                      | Some n => n
                      end in
  if (n_layers =? 1)%Z then
    [mkArgs in_feats out_feats mean_type None None]
  else
    [mkArgs in_feats hidden_feats mean_type None (Some F_relu)]
    ++ repeat (mkArgs hidden_feats hidden_feats mean_type None (Some F_relu))
              (Z.to_nat (n_layers - 2))
    ++ [mkArgs hidden_feats out_feats mean_type None None].

(** The sizes of consecutive layers fit: the chain starts at [n_in], every
    layer takes what the previous one returns, and the chain ends at
    [n_out]. *)
Fixpoint sizes_fit (n_in n_out : nat) (layers : list SAGEConvArgs) : Prop :=
  match layers with
  | [] => n_in = n_out
  | args :: rest =>
      conv_in_feats args = n_in /\ sizes_fit (conv_out_feats args) n_out rest
  end.

End Args.
End Constructors.

(** A block whose edges stay within its two index spaces, the output side
    being no larger than the input side. *)
Definition block_in_bounds (b : Block) : Prop :=
  number_of_dst_nodes b <= number_of_src_nodes b /\
  Forall (fun e => fst e < number_of_src_nodes b /\
                   snd e < number_of_dst_nodes b) (block_edges b).

(** A block lies within another: its input ids, its output ids and its
    edges (in global ids) are among those of the other. *)
Definition block_within (bn bf : Block) : Prop :=
  incl (src_global_ids bn) (src_global_ids bf) /\
  incl (dst_global_ids bn) (dst_global_ids bf) /\
  incl (global_edges bn) (global_edges bf).

(** A list of blocks that can be run through in order from [n_rows] input
    rows: every block is in bounds and has as many input nodes as the
    previous block has output nodes.  [rows_after] is the number of output
    nodes of the last block. *)
Fixpoint linked (n_rows : nat) (blocks : list Block) : Prop :=
  match blocks with
  | [] => True
  | b :: rest =>
      block_in_bounds b /\ number_of_src_nodes b = n_rows /\
      linked (number_of_dst_nodes b) rest
  end.

Fixpoint rows_after (n_rows : nat) (blocks : list Block) : nat :=
  match blocks with
  | [] => n_rows
  | b :: rest => rows_after (number_of_dst_nodes b) rest
  end.

Unset Implicit Arguments.

(** * Properties *)

(** ** The monad *)

Lemma bind_inr {A B} (m : M A) (k : A -> M B) r b r' :
  bind m k r = inr (b, r') ->
  exists a r1, m r = inr (a, r1) /\ k a r1 = inr (b, r').
Proof.
  unfold bind. destruct (m r) as [e | [a r1]]; [discriminate |].
  intros H. exists a, r1. split; [reflexivity | exact H].
Qed.

Lemma bind_run {A B} (m : M A) (k : A -> M B) r a r1 :
  m r = inr (a, r1) -> bind m k r = k a r1.
Proof. unfold bind. intros ->. reflexivity. Qed.

Lemma bind_bind {A B C} (m : M A) (f : A -> M B) (k : B -> M C) r :
  bind (bind m f) k r = bind m (fun a => bind (f a) k) r.
Proof. unfold bind. destruct (m r) as [e | [a r1]]; reflexivity. Qed.

Lemma bind_ext {A B} (m : M A) (f k : A -> M B) r :
  (forall a r1, f a r1 = k a r1) -> bind m f r = bind m k r.
Proof.
  intros H. unfold bind. destruct (m r) as [e | [a r1]]; [reflexivity |].
  apply H.
Qed.

Lemma bind_ret_l {A B} (a : A) (k : A -> M B) r : bind (ret a) k r = k a r.
Proof. reflexivity. Qed.

Lemma ret_inr {A} (a b : A) r r' : ret a r = inr (b, r') -> a = b /\ r = r'.
Proof. unfold ret. intros H. inversion H. split; reflexivity. Qed.

Lemma lift_inr {A} (x : error + A) r a r' :
  lift x r = inr (a, r') -> x = inr a /\ r = r'.
Proof.
  destruct x as [e | a0]; simpl; [discriminate |].
  intros H. apply ret_inr in H. destruct H as [-> ->]. split; reflexivity.
Qed.

Ltac monad_inv H :=
  match type of H with
  | bind _ _ _ = inr _ =>
      let a := fresh "a" in
      let r1 := fresh "r" in
      let H1 := fresh "Hm" in
      let H2 := fresh "Hk" in
      apply bind_inr in H; destruct H as (a & r1 & H1 & H2);
      try monad_inv H2
  | ret _ _ = inr _ =>
      let E1 := fresh "E" in
      let E2 := fresh "E" in
      apply ret_inr in H; destruct H as [E1 E2]
  | lift _ _ = inr _ =>
      let E1 := fresh "E" in
      let E2 := fresh "E" in
      apply lift_inr in H; destruct H as [E1 E2]
  end.

(** ** The id table and the lookup *)

Lemma mem_In x l : mem x l = true <-> In x l.
Proof.
  unfold mem. rewrite existsb_exists. split.
  - intros (y & Hy & E). apply Nat.eqb_eq in E. subst. exact Hy.
  - intros H. exists x. split; [exact H | apply Nat.eqb_refl].
Qed.

Lemma mem_false x l : mem x l = false <-> ~ In x l.
Proof.
  rewrite <- mem_In. destruct (mem x l); split; intros H;
    solve [congruence | exfalso; apply H; reflexivity].
Qed.

Lemma append_new_extends acc l : exists extra, append_new acc l = acc ++ extra.
Proof.
  revert acc. induction l as [| x t IH]; intros acc; simpl.
  - exists []. rewrite app_nil_r. reflexivity.
  - destruct (mem x acc).
    + apply IH.
    + destruct (IH (acc ++ [x])) as [extra E]. exists (x :: extra).
      rewrite E, <- app_assoc. reflexivity.
Qed.

Lemma append_new_NoDup acc l : NoDup acc -> NoDup (append_new acc l).
Proof.
  revert acc. induction l as [| x t IH]; intros acc Hacc; simpl.
  - exact Hacc.
  - apply IH. destruct (mem x acc) eqn:E; [exact Hacc |].
    apply mem_false in E.
    apply NoDup_app; [exact Hacc | repeat constructor; intros [] | ].
    intros y Hy [<- | []]. exact (E Hy).
Qed.

Lemma append_new_In acc l x :
  In x (append_new acc l) <-> In x acc \/ In x l.
Proof.
  revert acc. induction l as [| y t IH]; intros acc; simpl.
  - tauto.
  - rewrite IH. destruct (mem y acc) eqn:E.
    + apply mem_In in E. split; [tauto |].
      intros [H | [<- | H]]; tauto.
    + rewrite in_app_iff. simpl. tauto.
Qed.

Lemma append_new_fresh acc l :
  NoDup (acc ++ l) -> append_new acc l = acc ++ l.
Proof.
  revert acc. induction l as [| x t IH]; intros acc H; simpl.
  - rewrite app_nil_r. reflexivity.
  - assert (Hx : mem x acc = false).
    { apply mem_false. intros Hin. apply NoDup_remove_2 in H.
      apply H. apply in_or_app. left. exact Hin. }
    rewrite Hx, IH; rewrite <- app_assoc; [reflexivity | exact H].
Qed.

Lemma dedup_NoDup l : NoDup (dedup l).
Proof. apply append_new_NoDup. constructor. Qed.

Lemma dedup_In l x : In x (dedup l) <-> In x l.
Proof. unfold dedup. rewrite append_new_In. simpl. tauto. Qed.

Lemma dedup_fixed l : NoDup l -> dedup l = l.
Proof. intros H. unfold dedup. rewrite append_new_fresh; [reflexivity | exact H]. Qed.

Lemma index_of_lt x l : In x l -> index_of x l < length l.
Proof.
  induction l as [| y t IH]; simpl; [intros [] |].
  intros H. destruct (x =? y) eqn:E; [lia |].
  apply Nat.eqb_neq in E. destruct H as [H | H]; [congruence |].
  specialize (IH H). lia.
Qed.

Lemma nth_index_of x l d : In x l -> nth (index_of x l) l d = x.
Proof.
  induction l as [| y t IH]; simpl; [intros [] |].
  intros H. destruct (x =? y) eqn:E.
  - apply Nat.eqb_eq in E. congruence.
  - apply Nat.eqb_neq in E. destruct H as [H | H]; [congruence |].
    apply IH, H.
Qed.

Lemma index_of_app_l x l l' : In x l -> index_of x (l ++ l') = index_of x l.
Proof.
  induction l as [| y t IH]; simpl; [intros [] |].
  intros H. destruct (x =? y) eqn:E; [reflexivity |].
  apply Nat.eqb_neq in E. destruct H as [H | H]; [congruence |].
  rewrite IH; [reflexivity | exact H].
Qed.

Lemma index_of_nth l i d :
  NoDup l -> i < length l -> index_of (nth i l d) l = i.
Proof.
  revert i. induction l as [| y t IH]; intros i Hnd Hi; simpl in *; [lia |].
  inversion Hnd as [| ? ? Hy Hnd']; subst.
  destruct i as [| i].
  - rewrite Nat.eqb_refl. reflexivity.
  - assert (Hi' : i < length t) by lia.
    destruct (nth i t d =? y) eqn:E.
    + apply Nat.eqb_eq in E. exfalso. apply Hy. rewrite <- E.
      apply nth_In, Hi'.
    + rewrite IH; [reflexivity | exact Hnd' | exact Hi'].
Qed.

(** ** Blocks built by [to_block] *)

Lemma to_block_dst sg seeds : dst_global_ids (to_block sg seeds) = dedup seeds.
Proof. reflexivity. Qed.

Lemma to_block_src_extends sg seeds :
  exists extra, src_global_ids (to_block sg seeds) = dedup seeds ++ extra.
Proof. unfold to_block; simpl. apply append_new_extends. Qed.

Lemma to_block_prefix sg seeds :
  dst_global_ids (to_block sg seeds) =
  firstn (number_of_dst_nodes (to_block sg seeds))
         (src_global_ids (to_block sg seeds)).
Proof.
  unfold number_of_dst_nodes. rewrite to_block_dst.
  destruct (to_block_src_extends sg seeds) as [extra ->].
  rewrite firstn_app, Nat.sub_diag, firstn_all. simpl.
  rewrite app_nil_r. reflexivity.
Qed.

Lemma to_block_src_NoDup sg seeds : NoDup (src_global_ids (to_block sg seeds)).
Proof. unfold to_block; simpl. apply append_new_NoDup, dedup_NoDup. Qed.

Lemma to_block_dst_NoDup sg seeds : NoDup (dst_global_ids (to_block sg seeds)).
Proof. rewrite to_block_dst. apply dedup_NoDup. Qed.

Lemma to_block_src_In sg seeds x :
  In x (src_global_ids (to_block sg seeds)) <->
  In x seeds \/ In x (map fst sg).
Proof. unfold to_block; simpl. rewrite append_new_In, dedup_In. tauto. Qed.

(** ** The two loops are instances of [grow] *)

Lemma Full_iterate_grow self n st r :
  FullNeighborBlockSampler.iterate self n st r =
  grow (FullNeighborBlockSampler.g self) (repeat Full n) st r.
Proof.
  revert st r. induction n as [| n IH]; intros [seeds blocks] r; simpl.
  - reflexivity.
  - unfold FullNeighborBlockSampler.step, in_subgraph, bind.
    destruct (gather _ Full (dedup seeds) r) as [e | [sg r1]]; [reflexivity |].
    apply IH.
Qed.

Lemma Neighbor_iterate_grow self fanouts st r :
  NeighborSampler.iterate self fanouts st r =
  grow (NeighborSampler.g self) (map FixedFanout fanouts) st r.
Proof.
  revert st r. induction fanouts as [| k fs IH]; intros [seeds blocks] r; simpl.
  - reflexivity.
  - unfold NeighborSampler.step, sample_neighbors, bind.
    destruct (gather _ (FixedFanout k) (dedup seeds) r) as [e | [sg r1]];
      [reflexivity |].
    apply IH.
Qed.

Lemma grow_app g sels1 sels2 st r :
  grow g (sels1 ++ sels2) st r = bind (grow g sels1 st) (grow g sels2) r.
Proof.
  revert st r. induction sels1 as [| sel rest IH]; intros st r; simpl.
  - reflexivity.
  - rewrite bind_bind. apply bind_ext. intros sg r1. apply IH.
Qed.

Lemma grow_blocks g sels st r st' r' :
  grow g sels st r = inr (st', r') ->
  exists new, snd st' = new ++ snd st /\ length new = length sels.
Proof.
  revert st r. induction sels as [| sel rest IH]; intros st r H; simpl in H.
  - monad_inv H. subst. exists []. split; reflexivity.
  - monad_inv H. apply IH in Hk. destruct Hk as (new & E & Hlen).
    simpl in E. exists (new ++ [to_block a (fst st)]). split.
    + rewrite E, <- app_assoc. reflexivity.
    + rewrite length_app, Hlen. simpl. lia.
Qed.

(** The block built by iteration [j], together with the state it was built
    from; the blocks assembled before it are the tail of the final list. *)
Lemma grow_nth g sels seeds r st' r' j sel :
  grow g sels (seeds, []) r = inr (st', r') ->
  nth_error sels j = Some sel ->
  exists sj bsj rj sg rj',
    grow g (firstn j sels) (seeds, []) r = inr ((sj, bsj), rj) /\
    gather g sel (dedup sj) rj = inr (sg, rj') /\
    snd st' = firstn (length sels - 1 - j) (snd st') ++
              to_block sg sj :: bsj /\
    length bsj = j /\
    length (snd st') = length sels.
Proof.
  intros H Hj.
  assert (Hlt : j < length sels) by (apply nth_error_Some; congruence).
  destruct (nth_error_split sels j Hj) as (l1 & l2 & E & Hl1).
  assert (Ef : firstn j sels = l1).
  { rewrite E, <- Hl1, firstn_app, Nat.sub_diag, firstn_all. simpl.
    apply app_nil_r. }
  rewrite Ef. rewrite E in H. rewrite grow_app in H.
  apply bind_inr in H. destruct H as ([sj bsj] & rj & H1 & H2).
  simpl in H2. apply bind_inr in H2. destruct H2 as (sg & rj' & Hg & H3).
  simpl in Hg, H3.
  exists sj, bsj, rj, sg, rj'.
  pose proof (grow_blocks _ _ _ _ _ _ H1) as (n1 & En1 & Hn1). simpl in En1.
  rewrite app_nil_r in En1. subst n1.
  pose proof (grow_blocks _ _ _ _ _ _ H3) as (n3 & En3 & Hn3). simpl in En3.
  assert (Hlen : length sels - 1 - j = length n3).
  { rewrite E, length_app. simpl. lia. }
  repeat split; try assumption.
  - rewrite Hlen, En3, firstn_app, Nat.sub_diag, firstn_all. simpl.
    rewrite app_nil_r. reflexivity.
  - lia.
  - rewrite En3, length_app. simpl. rewrite E, length_app. simpl. lia.
Qed.

Lemma grow_front g sels seeds r s bs r' :
  grow g sels (seeds, []) r = inr ((s, bs), r') ->
  match bs with
  | [] => s = seeds
  | b :: _ => s = src_global_ids b
  end.
Proof.
  induction sels as [| sel l _] using rev_ind; simpl.
  - intros H. monad_inv H. inversion E. reflexivity.
  - rewrite grow_app. intros H. apply bind_inr in H.
    destruct H as (st & r0 & _ & Hk). simpl in Hk. apply bind_inr in Hk.
    destruct Hk as (sg & r1 & _ & Hr). apply ret_inr in Hr.
    destruct Hr as [Hr _]. inversion Hr. reflexivity.
Qed.

(** Every block of a chain, read off at its chain index. *)
Lemma grow_chain_nth g sels seeds r s' chain r' i b :
  grow g sels (seeds, []) r = inr ((s', chain), r') ->
  nth_error chain i = Some b ->
  exists sel sj rj sg rj',
    i < length sels /\
    nth_error sels (length sels - 1 - i) = Some sel /\
    grow g (firstn (length sels - 1 - i) sels) (seeds, []) r =
      inr ((sj, skipn (S i) chain), rj) /\
    gather g sel (dedup sj) rj = inr (sg, rj') /\
    b = to_block sg sj.
Proof.
  intros H Hb.
  pose proof (grow_blocks _ _ _ _ _ _ H) as (new & Enew & Hlen). simpl in Enew.
  rewrite app_nil_r in Enew. subst new.
  assert (Hi : i < length sels).
  { rewrite <- Hlen. apply nth_error_Some. congruence. }
  destruct (nth_error (A := selector) sels (length sels - 1 - i)) as [sel |] eqn:Hsel.
  2:{ apply nth_error_None in Hsel. lia. }
  destruct (grow_nth _ _ _ _ _ _ _ _ H Hsel) as (sj & bsj & rj & sg & rj' & H1 & H2 & H3 & H4 & H5).
  simpl in H3, H5.
  replace (length sels - 1 - (length sels - 1 - i)) with i in H3 by lia.
  assert (Hf : length (firstn i chain) = i) by (rewrite length_firstn; lia).
  remember (firstn i chain) as pre eqn:Hpre. clear Hpre.
  assert (Hs : skipn (S i) chain = bsj).
  { rewrite H3, skipn_app, Hf, skipn_all2 by lia.
    replace (S i - i) with 1 by lia. reflexivity. }
  exists sel, sj, rj, sg, rj'. rewrite Hs. repeat split; try assumption.
  rewrite H3 in Hb. rewrite nth_error_app2 in Hb by lia.
  rewrite Hf, Nat.sub_diag in Hb. simpl in Hb. congruence.
Qed.

Lemma full_chain_grow self seeds chain :
  full_chain self seeds chain <->
  exists r s' r',
    grow (FullNeighborBlockSampler.g self)
         (repeat Full (FullNeighborBlockSampler.num_layers self))
         (seeds, []) r = inr ((s', chain), r').
Proof.
  unfold full_chain, FullNeighborBlockSampler.sample. split.
  - intros (r & r' & H). monad_inv H. rewrite Full_iterate_grow in Hm.
    destruct a as [s' c]. simpl in E. subst. eauto.
  - intros (r & s' & r' & H). exists r, r'.
    rewrite <- Full_iterate_grow in H.
    unfold bind. rewrite H. reflexivity.
Qed.

Lemma neighbor_chain_grow self seeds chain :
  neighbor_chain self seeds chain <->
  exists r s' r',
    grow (NeighborSampler.g self)
         (map FixedFanout (rev (NeighborSampler.num_fanouts self)))
         (seeds, []) r = inr ((s', chain), r').
Proof.
  unfold neighbor_chain, NeighborSampler.sample. split.
  - intros (r & r' & H). monad_inv H. rewrite Neighbor_iterate_grow in Hm.
    destruct a as [s' c]. simpl in E. subst. eauto.
  - intros (r & s' & r' & H). exists r, r'.
    rewrite <- Neighbor_iterate_grow in H.
    unfold bind. rewrite H. reflexivity.
Qed.

Lemma sampled_chain_grow chain :
  sampled_chain chain ->
  exists g sels seeds r s' r',
    grow g sels (seeds, []) r = inr ((s', chain), r').
Proof.
  intros [(self & seeds & H) | (self & seeds & H)].
  - apply full_chain_grow in H. destruct H as (r & s' & r' & H). eauto 10.
  - apply neighbor_chain_grow in H. destruct H as (r & s' & r' & H). eauto 10.
Qed.

Lemma sampled_block_shape chain b :
  sampled_chain chain -> In b chain -> exists sg sj, b = to_block sg sj.
Proof.
  intros Hc Hb. apply sampled_chain_grow in Hc.
  destruct Hc as (g & sels & seeds & r & s' & r' & H).
  apply In_nth_error in Hb. destruct Hb as [i Hi].
  destruct (grow_chain_nth _ _ _ _ _ _ _ _ _ H Hi) as (sel & sj & rj & sg & rj' & _ & _ & _ & _ & E).
  eauto.
Qed.

(** ** Row gathering *)

Lemma index_rows_inr T (h : list T) ids r rows r' :
  index_rows h ids r = inr (rows, r') ->
  r' = r /\ map (nth_error h) ids = map Some rows.
Proof.
  revert r rows r'. induction ids as [| i t IH]; intros r rows r' H;
    unfold index_rows in H; simpl in H.
  - apply ret_inr in H. destruct H as [<- <-]. split; reflexivity.
  - apply bind_inr in H. destruct H as (x & r1 & Hx & H).
    apply bind_inr in H. destruct H as (xs & r2 & Hxs & H).
    apply ret_inr in H. destruct H as [<- <-].
    destruct (nth_error h i) as [y |] eqn:E; simpl in Hx; [| discriminate].
    apply ret_inr in Hx. destruct Hx as [<- <-].
    apply IH in Hxs. destruct Hxs as [-> Hmap]. simpl.
    rewrite E, Hmap. split; reflexivity.
Qed.

Lemma index_rows_intro T (h : list T) ids rows r :
  map (nth_error h) ids = map Some rows ->
  index_rows h ids r = inr (rows, r).
Proof.
  revert rows. induction ids as [| i t IH]; intros [| x xs] H; simpl in H;
    try discriminate.
  - reflexivity.
  - inversion H as [[Hi Ht]]. unfold index_rows. simpl.
    unfold bind. rewrite Hi. simpl.
    fold (index_rows h t). rewrite (IH xs Ht). reflexivity.
Qed.

Lemma nth_error_skipn {A} (l : list A) n x :
  nth_error l n = Some x -> exists t, skipn n l = x :: t.
Proof.
  revert l. induction n as [| n IH]; intros [| y l] H; simpl in H;
    try discriminate.
  - inversion H. exists l. reflexivity.
  - apply IH, H.
Qed.

(** ** Claims about the structure of a chain *)

(** C1, prefix invariant.  In every block of a chain returned by either
    sampler, for every seed collection, the output ids are the first [D]
    input ids, in the same order ([D] the number of output nodes); hence
    the first [D] rows gathered for the input ids are exactly the rows of
    the output ids, which is what [SAGENet.propagate] slices. *)
Theorem prefix_invariant chain b :
  sampled_chain chain ->
  In b chain ->
  dst_global_ids b = firstn (number_of_dst_nodes b) (src_global_ids b) /\
  forall T (h rows : list T) r r',
    index_rows h (src_global_ids b) r = inr (rows, r') ->
    index_rows h (dst_global_ids b) r =
      inr (firstn (number_of_dst_nodes b) rows, r).
Proof.
  intros Hc Hb.
  destruct (sampled_block_shape chain b Hc Hb) as (sg & sj & ->).
  pose proof (to_block_prefix sg sj) as Hp. split; [exact Hp |].
  intros T h rows r r' H. apply index_rows_inr in H. destruct H as [_ H].
  apply index_rows_intro. rewrite Hp at 1.
  rewrite <- !firstn_map, H. reflexivity.
Qed.

Lemma prefix_invariant_witness :
  exists chain b,
    sampled_chain chain /\ In b chain /\
    dst_global_ids b = firstn (number_of_dst_nodes b) (src_global_ids b).
Proof.
  destruct (NeighborSampler.sample (NeighborSampler.mk example_graph [2%Z; 2%Z])
                                   [4; 6] rs0) as [e | [chain r']] eqn:H;
    [vm_compute in H; discriminate |].
  destruct chain as [| b chain'] eqn:Ec;
    [vm_compute in H; discriminate |].
  assert (Hc : sampled_chain (b :: chain')).
  { right. exists (NeighborSampler.mk example_graph [2%Z; 2%Z]), [4; 6].
    exists rs0, r'. exact H. }
  assert (Hb : In b (b :: chain')) by (left; reflexivity).
  exists (b :: chain'), b. split; [exact Hc | split; [exact Hb |]].
  apply (prefix_invariant (b :: chain') b Hc Hb).
Defined.

(** C5, no duplicate ids.  In every block of a chain returned by either
    sampler, from any seed collection (with or without repeated ids), no
    id occurs twice among the input ids and none occurs twice among the
    output ids. *)
Theorem no_duplicate_ids chain b :
  sampled_chain chain ->
  In b chain ->
  NoDup (src_global_ids b) /\ NoDup (dst_global_ids b).
Proof.
  intros Hc Hb.
  destruct (sampled_block_shape chain b Hc Hb) as (sg & sj & ->).
  split; [apply to_block_src_NoDup | apply to_block_dst_NoDup].
Qed.

Lemma no_duplicate_ids_witness :
  sampled_chain [block_of_layer_2] /\
  In block_of_layer_2 [block_of_layer_2] /\
  NoDup (src_global_ids block_of_layer_2) /\
  NoDup (dst_global_ids block_of_layer_2).
Proof.
  assert (Hc : sampled_chain [block_of_layer_2]).
  { left. exists (FullNeighborBlockSampler.init example_graph 1), [4; 6; 4; 4; 6].
    exists rs0, rs0. vm_compute. reflexivity. }
  assert (Hb : In block_of_layer_2 [block_of_layer_2]) by (left; reflexivity).
  split; [exact Hc | split; [exact Hb |]].
  apply (no_duplicate_ids [block_of_layer_2] block_of_layer_2 Hc Hb).
Defined.

(** C10, adjacent blocks.  In every chain returned by either sampler, the
    output ids of [chain[k]] are the input ids of [chain[k+1]], element for
    element in the same order. *)
Theorem adjacent_blocks_agree chain k b b' :
  sampled_chain chain ->
  nth_error chain k = Some b ->
  nth_error chain (S k) = Some b' ->
  dst_global_ids b = src_global_ids b'.
Proof.
  intros Hc Hk Hk'.
  assert (Hnd : NoDup (src_global_ids b')).
  { destruct (sampled_block_shape chain b' Hc (nth_error_In _ _ Hk'))
      as (sg' & sj' & ->).
    apply to_block_src_NoDup. }
  apply sampled_chain_grow in Hc.
  destruct Hc as (g & sels & seeds & r & s' & r' & H).
  destruct (grow_chain_nth _ _ _ _ _ _ _ _ _ H Hk)
    as (sel & sj & rj & sg & rj' & _ & _ & Hpre & _ & ->).
  destruct (nth_error_skipn _ _ _ Hk') as [t Et]. rewrite Et in Hpre.
  apply grow_front in Hpre. subst sj.
  rewrite to_block_dst. apply dedup_fixed, Hnd.
Qed.

Lemma adjacent_blocks_agree_witness :
  sampled_chain [block_of_layer_1; block_of_layer_2] /\
  dst_global_ids block_of_layer_1 = src_global_ids block_of_layer_2.
Proof.
  assert (Hc : sampled_chain [block_of_layer_1; block_of_layer_2]).
  { left. exists (FullNeighborBlockSampler.init example_graph 2), [4; 6].
    exists rs0, rs0. vm_compute. reflexivity. }
  split; [exact Hc |].
  apply (adjacent_blocks_agree [block_of_layer_1; block_of_layer_2] 0
           block_of_layer_1 block_of_layer_2 Hc); reflexivity.
Defined.

Lemma firstn_repeat_min {A} (x : A) k n :
  firstn k (repeat x n) = repeat x (Nat.min k n).
Proof.
  revert n. induction k as [| k IH]; intros [| n]; simpl; try reflexivity.
  rewrite IH. reflexivity.
Qed.

(** The frontier a block was built from, in terms of [grow]. *)
Lemma grow_frontier g sels seeds r s' chain r' i b :
  grow g sels (seeds, []) r = inr ((s', chain), r') ->
  nth_error chain i = Some b ->
  exists fr bs rj,
    grow g (firstn (length sels - 1 - i) sels) (seeds, []) r =
      inr ((fr, bs), rj) /\
    dst_global_ids b = dedup fr /\
    (S i < length sels ->
     dst_global_ids b = fr /\
     exists b', nth_error chain (S i) = Some b' /\ fr = src_global_ids b') /\
    (S i = length sels -> fr = seeds).
Proof.
  intros H Hi.
  pose proof (grow_blocks _ _ _ _ _ _ H) as (new & Enew & Hlen).
  simpl in Enew. rewrite app_nil_r in Enew. subst new.
  destruct (grow_chain_nth _ _ _ _ _ _ _ _ _ H Hi)
    as (sel & sj & rj & sg & rj' & Hlt & _ & Hpre & _ & ->).
  exists sj, (skipn (S i) chain), rj.
  split; [exact Hpre |]. split; [apply to_block_dst |]. split.
  - intros Hlt'.
    destruct (nth_error chain (S i)) as [b' |] eqn:Hb'.
    2:{ apply nth_error_None in Hb'. lia. }
    assert (Hin : In b' chain) by (eapply nth_error_In, Hb').
    destruct (nth_error_skipn _ _ _ Hb') as [t Et]. rewrite Et in Hpre.
    apply grow_front in Hpre. subst sj.
    split; [| exists b'; split; reflexivity].
    apply In_nth_error in Hin. destruct Hin as [i' Hi'].
    destruct (grow_chain_nth _ _ _ _ _ _ _ _ _ H Hi')
      as (_ & sj' & _ & sg' & _ & _ & _ & _ & _ & ->).
    rewrite to_block_dst. apply dedup_fixed, to_block_src_NoDup.
  - intros E. rewrite skipn_all2 in Hpre by lia.
    apply grow_front in Hpre. exact Hpre.
Qed.

(** C2, chain continuity, as the samplers have it.  For every chain
    returned by a sampler and every index [i] below the last one, the
    output ids of [chain[i]] are, element for element, the seed collection
    that was used to build [chain[i]] (the frontier of that iteration),
    which is the list of input ids of [chain[i+1]]. *)
Theorem chain_continuity :
  (forall self seeds r chain r' i b,
      FullNeighborBlockSampler.sample self seeds r = inr (chain, r') ->
      nth_error chain i = Some b ->
      S i < FullNeighborBlockSampler.num_layers self ->
      exists fr r'',
        FullNeighborBlockSampler.frontier self seeds i r = inr (fr, r'') /\
        dst_global_ids b = fr /\
        exists b', nth_error chain (S i) = Some b' /\
                   fr = src_global_ids b') /\
  (forall self seeds r chain r' i b,
      NeighborSampler.sample self seeds r = inr (chain, r') ->
      nth_error chain i = Some b ->
      S i < length (NeighborSampler.num_fanouts self) ->
      exists fr r'',
        NeighborSampler.frontier self seeds i r = inr (fr, r'') /\
        dst_global_ids b = fr /\
        exists b', nth_error chain (S i) = Some b' /\
                   fr = src_global_ids b').
Proof.
  split; intros self seeds r chain r' i b H Hi Hlt.
  - unfold FullNeighborBlockSampler.sample in H.
    apply bind_inr in H. destruct H as ([s' c] & r1 & H & Hr).
    apply ret_inr in Hr. simpl in Hr. destruct Hr as [-> ->].
    rewrite Full_iterate_grow in H.
    destruct (grow_frontier _ _ _ _ _ _ _ _ _ H Hi)
      as (fr & bs & rj & Hpre & _ & Hbelow & _).
    rewrite repeat_length in *. rewrite firstn_repeat_min in Hpre.
    replace (Nat.min (FullNeighborBlockSampler.num_layers self - 1 - i)
                     (FullNeighborBlockSampler.num_layers self))
      with (FullNeighborBlockSampler.num_layers self - 1 - i) in Hpre by lia.
    exists fr, rj. split; [| exact (Hbelow Hlt)].
    unfold FullNeighborBlockSampler.frontier, bind.
    rewrite Full_iterate_grow, Hpre. reflexivity.
  - unfold NeighborSampler.sample in H.
    apply bind_inr in H. destruct H as ([s' c] & r1 & H & Hr).
    apply ret_inr in Hr. simpl in Hr. destruct Hr as [-> ->].
    rewrite Neighbor_iterate_grow in H.
    destruct (grow_frontier _ _ _ _ _ _ _ _ _ H Hi)
      as (fr & bs & rj & Hpre & _ & Hbelow & _).
    rewrite length_map, length_rev in *. rewrite firstn_map in Hpre.
    exists fr, rj. split; [| exact (Hbelow Hlt)].
    unfold NeighborSampler.frontier, bind.
    rewrite Neighbor_iterate_grow, Hpre. reflexivity.
Qed.

Lemma chain_continuity_witness :
  exists chain b r' fr r'' b',
    FullNeighborBlockSampler.sample
      (FullNeighborBlockSampler.init example_graph 2) [4; 6] rs0 =
      inr (chain, r') /\
    nth_error chain 0 = Some b /\
    FullNeighborBlockSampler.frontier
      (FullNeighborBlockSampler.init example_graph 2) [4; 6] 0 rs0 =
      inr (fr, r'') /\
    dst_global_ids b = fr /\
    nth_error chain 1 = Some b' /\
    fr = src_global_ids b'.
Proof.
  destruct (FullNeighborBlockSampler.sample
              (FullNeighborBlockSampler.init example_graph 2) [4; 6] rs0)
    as [e | [chain r']] eqn:H; [vm_compute in H; discriminate |].
  destruct (nth_error chain 0) as [b |] eqn:Hb.
  2:{ vm_compute in H. inversion H; subst. discriminate. }
  assert (Hlt : 1 < FullNeighborBlockSampler.num_layers
                      (FullNeighborBlockSampler.init example_graph 2))
    by (simpl; lia).
  destruct (proj1 chain_continuity
                  (FullNeighborBlockSampler.init example_graph 2)
                  [4; 6] rs0 chain r' 0 b H Hb Hlt)
    as (fr & r'' & Hf & Hd & b' & Hb' & Hs).
  exists chain, b, r', fr, r'', b'.
  split; [reflexivity |]. split; [exact Hb |]. split; [exact Hf |].
  split; [exact Hd |]. split; [exact Hb' | exact Hs].
Defined.

(** C2 as worded does not hold: on the notebook's graph with two layers
    and seeds 4 and 6, the output ids of [chain[1]] are [4; 6] while the
    seed collection used to build [chain[0]] is [4; 6; 0; 2; 7]. *)
Lemma chain_continuity_as_worded_fails :
  exists chain b1 fr r' r'',
    FullNeighborBlockSampler.sample
      (FullNeighborBlockSampler.init example_graph 2) [4; 6] rs0 =
      inr (chain, r') /\
    nth_error chain 1 = Some b1 /\
    FullNeighborBlockSampler.frontier
      (FullNeighborBlockSampler.init example_graph 2) [4; 6] 0 rs0 =
      inr (fr, r'') /\
    dst_global_ids b1 = [4; 6] /\
    fr = [4; 6; 0; 2; 7] /\
    dst_global_ids b1 <> fr.
Proof.
  do 5 eexists.
  split; [vm_compute; reflexivity |].
  split; [reflexivity |].
  split; [vm_compute; reflexivity |].
  split; [reflexivity |]. split; [reflexivity |]. discriminate.
Qed.

(** ** Empty seed collection *)

Lemma grow_empty g sels bs r :
  grow g sels ([], bs) r =
  inr (([], repeat empty_block (length sels) ++ bs), r).
Proof.
  revert bs. induction sels as [| sel rest IH]; intros bs; simpl.
  - reflexivity.
  - unfold bind. simpl. change (to_block [] []) with empty_block.
    change (append_new (dedup []) (map fst [])) with (@nil nat).
    rewrite IH.
    change (empty_block :: repeat empty_block (length rest) ++ bs)
      with ((empty_block :: repeat empty_block (length rest)) ++ bs).
    rewrite (repeat_cons (length rest) empty_block), <- app_assoc.
    reflexivity.
Qed.

(** C6, empty seed collection.  Sampling with no seed does not raise: the
    full-neighbor sampler returns [num_layers] blocks and the neighbor
    sampler one block per fanout, each without any output node (and the
    random source is left as it was). *)
Theorem empty_seed_set :
  (forall self r,
      exists chain,
        FullNeighborBlockSampler.sample self [] r = inr (chain, r) /\
        length chain = FullNeighborBlockSampler.num_layers self /\
        Forall (fun b => number_of_dst_nodes b = 0) chain) /\
  (forall self r,
      exists chain,
        NeighborSampler.sample self [] r = inr (chain, r) /\
        length chain = length (NeighborSampler.num_fanouts self) /\
        Forall (fun b => number_of_dst_nodes b = 0) chain).
Proof.
  split; intros self r.
  - exists (repeat empty_block (FullNeighborBlockSampler.num_layers self)).
    split; [| split].
    + unfold FullNeighborBlockSampler.sample, bind.
      rewrite Full_iterate_grow, grow_empty, repeat_length, app_nil_r.
      reflexivity.
    + apply repeat_length.
    + apply Forall_forall. intros b Hb. apply repeat_spec in Hb. subst b.
      reflexivity.
  - exists (repeat empty_block (length (NeighborSampler.num_fanouts self))).
    split; [| split].
    + unfold NeighborSampler.sample, bind.
      rewrite Neighbor_iterate_grow, grow_empty, length_map, length_rev,
        app_nil_r.
      reflexivity.
    + apply repeat_length.
    + apply Forall_forall. intros b Hb. apply repeat_spec in Hb. subst b.
      reflexivity.
Qed.

(** ** Construction of the neighbor sampler *)

(** C7 as worded does not hold: a fanout list with a zero and a negative
    entry is accepted at construction. *)
Lemma invalid_fanout_not_rejected :
  NeighborSampler.init example_graph [0%Z; (-3)%Z] <> inl InvalidFanoutConfig /\
  NeighborSampler.init example_graph [0%Z; (-3)%Z] =
    inr (NeighborSampler.mk example_graph [0%Z; (-3)%Z]).
Proof. split; [discriminate | reflexivity]. Qed.

(** C7, as the constructor has it.  Construction performs no validation:
    it succeeds for every fanout list and stores it unchanged.  The
    sampler has no layer count of its own: a chain returned by [sample]
    has one block per entry of the fanout list. *)
Theorem construction_accepts_any_fanouts g num_fanouts :
  NeighborSampler.init g num_fanouts = inr (NeighborSampler.mk g num_fanouts) /\
  forall seeds r chain r',
    NeighborSampler.sample (NeighborSampler.mk g num_fanouts) seeds r =
      inr (chain, r') ->
    length chain = length num_fanouts.
Proof.
  split; [reflexivity |].
  intros seeds r chain r' H. unfold NeighborSampler.sample in H.
  apply bind_inr in H. destruct H as ([s' c] & r1 & H & Hr).
  apply ret_inr in Hr. simpl in Hr. destruct Hr as [-> ->].
  rewrite Neighbor_iterate_grow in H.
  pose proof (grow_blocks _ _ _ _ _ _ H) as (new & Enew & Hlen).
  simpl in Enew, Hlen. rewrite app_nil_r in Enew. subst new.
  rewrite Hlen, length_map, length_rev. reflexivity.
Qed.

Lemma construction_accepts_any_fanouts_witness :
  exists chain r',
    NeighborSampler.sample (NeighborSampler.mk example_graph [2%Z; 2%Z])
                           [4; 6] rs0 = inr (chain, r') /\
    length chain = 2.
Proof.
  destruct (NeighborSampler.sample (NeighborSampler.mk example_graph [2%Z; 2%Z])
                                   [4; 6] rs0) as [e | [chain r']] eqn:H;
    [vm_compute in H; discriminate |].
  exists chain, r'. split; [reflexivity |].
  apply (proj2 (construction_accepts_any_fanouts example_graph [2%Z; 2%Z])
               [4; 6] rs0 chain r' H).
Defined.

(** ** Determinism of full-neighbor sampling *)

Lemma stateless_ret {A} (a : A) : stateless (ret a).
Proof. intros r1 r2. reflexivity. Qed.

Lemma stateless_raise {A} e : stateless (@raise A e).
Proof. intros r1 r2. reflexivity. Qed.

Lemma stateless_lift {A} (x : error + A) : stateless (lift x).
Proof. destruct x; [apply stateless_raise | apply stateless_ret]. Qed.

Lemma stateless_bind {A B} (m : M A) (k : A -> M B) :
  stateless m -> (forall a, stateless (k a)) -> stateless (bind m k).
Proof.
  intros Hm Hk r1 r2. unfold bind. rewrite (Hm r1 r2).
  destruct (m r1) as [e | [a r1']]; simpl; [reflexivity |].
  apply Hk.
Qed.

Lemma gather_Full_stateless g nodes : stateless (gather g Full nodes).
Proof.
  induction nodes as [| v vs IH]; simpl.
  - apply stateless_ret.
  - apply stateless_bind; [apply stateless_lift |]. intros inc.
    apply stateless_bind; [apply stateless_ret |]. intros chosen.
    apply stateless_bind; [exact IH |]. intros rest. apply stateless_ret.
Qed.

Lemma grow_Full_stateless g n st : stateless (grow g (repeat Full n) st).
Proof.
  revert st. induction n as [| n IH]; intros st; simpl.
  - apply stateless_ret.
  - apply stateless_bind; [apply gather_Full_stateless |]. intros sg. apply IH.
Qed.

Lemma Full_sample_stateless self seeds :
  stateless (FullNeighborBlockSampler.sample self seeds).
Proof.
  intros r1 r2. unfold FullNeighborBlockSampler.sample, bind.
  rewrite !Full_iterate_grow.
  rewrite (grow_Full_stateless _ _ _ r1 r2).
  destruct (grow _ _ _ r1) as [e | [st r1']]; reflexivity.
Qed.

(** C8, full-neighbor sampling is deterministic.  For every sampler and
    seed collection, the outcome of [sample] (the chain, with its ids and
    edge lists in order, or the failure) is the same at every state of the
    random source, and the call leaves that state untouched; so two calls
    in sequence return the same chain twice. *)
Theorem full_sampling_deterministic self seeds :
  (forall r1 r2,
      FullNeighborBlockSampler.sample self seeds r2 =
      restate (FullNeighborBlockSampler.sample self seeds r1) r2) /\
  (forall r,
      (c1 <- FullNeighborBlockSampler.sample self seeds ;;
       c2 <- FullNeighborBlockSampler.sample self seeds ;;
       ret (c1, c2)) r =
      (c <- FullNeighborBlockSampler.sample self seeds ;; ret (c, c)) r).
Proof.
  split.
  - apply Full_sample_stateless.
  - intros r. unfold bind.
    pose proof (Full_sample_stateless self seeds r r) as Hr.
    destruct (FullNeighborBlockSampler.sample self seeds r)
      as [e | [c r1]] eqn:E; [reflexivity |].
    simpl in Hr. inversion Hr as [Er]. rewrite Er in *. rewrite E.
    reflexivity.
Qed.

(** The neighbor sampler, by contrast, depends on the random source. *)
Example neighbor_sampling_depends_on_random_source :
  run (NeighborSampler.sample (NeighborSampler.mk example_graph [2%Z])
                              [4; 6]) rs0 <>
  run (NeighborSampler.sample (NeighborSampler.mk example_graph [2%Z])
                              [4; 6]) (mkRandomSource (rs_gen rs0) 1).
Proof. vm_compute. discriminate. Qed.

(** ** Edges kept by [gather] *)

Lemma incident_from s es v :
  map (fun p => (fst p, v))
      (map (fun p : nat * (nat * nat) => (fst (snd p), fst p))
           (filter (fun p => snd (snd p) =? v) (combine (seq s (length es)) es)))
  = filter (fun e => snd e =? v) es.
Proof.
  revert s. induction es as [| [u w] es IH]; intros s; simpl.
  - reflexivity.
  - destruct (w =? v) eqn:E; simpl; rewrite IH; [| reflexivity].
    apply Nat.eqb_eq in E. subst w. reflexivity.
Qed.

Lemma incident_as_filter g v :
  map (fun p => (fst p, v)) (incident_edges g v) =
  filter (fun e => snd e =? v) (all_edges g).
Proof. unfold incident_edges. apply incident_from. Qed.

Lemma incident_length g v : length (incident_edges g v) = in_degree g v.
Proof.
  unfold in_degree. rewrite <- incident_as_filter, length_map. reflexivity.
Qed.

Lemma gather_Full_eq g nodes r :
  gather g Full nodes r =
  if forallb (fun v => v <? number_of_nodes g) nodes
  then inr (in_edges g nodes, r)
  else inl OutOfRange.
Proof.
  induction nodes as [| v vs IH]; simpl.
  - reflexivity.
  - unfold bind, neighbors_of. destruct (v <? number_of_nodes g); simpl.
    + rewrite IH. destruct (forallb _ vs); [| reflexivity].
      unfold ret. rewrite incident_as_filter. reflexivity.
    + reflexivity.
Qed.

Lemma gather_dst_in g sel nodes r sg r' :
  gather g sel nodes r = inr (sg, r') ->
  Forall (fun e => In (snd e) nodes) sg.
Proof.
  revert r sg r'. induction nodes as [| v vs IH]; intros r sg r' H;
    simpl in H.
  - apply ret_inr in H. destruct H as [<- _]. constructor.
  - apply bind_inr in H. destruct H as (inc & r1 & _ & H).
    apply bind_inr in H. destruct H as (chosen & r2 & _ & H).
    apply bind_inr in H. destruct H as (rest & r3 & Hrest & H).
    apply ret_inr in H. destruct H as [<- _].
    apply Forall_app. split.
    + apply Forall_forall. intros e He. apply in_map_iff in He.
      destruct He as (p & <- & _). left. reflexivity.
    + apply IH in Hrest. eapply Forall_impl; [| exact Hrest].
      intros e He. right. exact He.
Qed.

Lemma map_back S D extra (l : list (nat * nat)) :
  S = D ++ extra ->
  Forall (fun e => In (fst e) S /\ In (snd e) D) l ->
  combine (map (fun e => nth (index_of (fst e) S) S 0) l)
          (map (fun e => nth (index_of (snd e) S) D 0) l) = l.
Proof.
  intros HS Hall. induction Hall as [| [u v] t [Hu Hv] _ IH]; simpl.
  - reflexivity.
  - simpl in Hu, Hv. rewrite IH. f_equal. f_equal.
    + apply nth_index_of, Hu.
    + rewrite HS, index_of_app_l by exact Hv. apply nth_index_of, Hv.
Qed.

(** Edge correctness of [to_block]: mapped back to global ids, the edges of
    the block are the kept edges, in order. *)
Lemma global_edges_to_block sg seeds :
  Forall (fun e => In (snd e) seeds) sg ->
  global_edges (to_block sg seeds) = sg.
Proof.
  intros Hdst. unfold global_edges, print_block_info.
  destruct (to_block_src_extends sg seeds) as [extra Hsrc].
  assert (Hall : Forall (fun e => In (fst e) (src_global_ids (to_block sg seeds)) /\
                                  In (snd e) (dedup seeds)) sg).
  { apply Forall_forall. intros e He. split.
    - apply to_block_src_In. right. apply in_map, He.
    - apply dedup_In. rewrite Forall_forall in Hdst. apply Hdst, He. }
  pose proof (map_back _ _ _ _ Hsrc Hall) as E.
  rewrite to_block_dst.
  change (block_edges (to_block sg seeds))
    with (map (fun e => (index_of (fst e) (src_global_ids (to_block sg seeds)),
                         index_of (snd e) (src_global_ids (to_block sg seeds))))
              sg).
  rewrite !map_map. simpl fst. simpl snd. exact E.
Qed.

Lemma filter_disjoint_perm {A} (p q : A -> bool) l :
  (forall x, p x = true -> q x = false) ->
  Permutation (filter p l ++ filter q l) (filter (fun x => p x || q x) l).
Proof.
  intros Hpq. induction l as [| a l IH]; simpl.
  - constructor.
  - destruct (p a) eqn:Ep; simpl.
    + rewrite (Hpq a Ep). simpl. constructor. exact IH.
    + destruct (q a); [| exact IH].
      apply Permutation_sym, Permutation_cons_app, Permutation_sym, IH.
Qed.

(** ** Edge correctness under full selection *)

(** C4, edge correctness.  On every graph whose edges into nodes 4 and 6
    are (0,4), (2,4), (7,4), (0,6) and (2,6), one block built with
    full-neighbor selection from the seeds 4 and 6 has the input ids
    4, 6 followed by exactly 0, 2 and 7, and its edges mapped back to
    global ids are exactly these five edges. *)
Theorem edge_correctness_full g r :
  6 < number_of_nodes g ->
  Permutation (filter (fun e => (snd e =? 4) || (snd e =? 6)) (all_edges g))
              edges_into_4_and_6 ->
  exists b,
    FullNeighborBlockSampler.sample (FullNeighborBlockSampler.init g 1)
                                    [4; 6] r = inr ([b], r) /\
    dst_global_ids b = [4; 6] /\
    (exists rest, src_global_ids b = 4 :: 6 :: rest /\
                  Permutation rest [0; 2; 7]) /\
    Permutation (global_edges b) edges_into_4_and_6.
Proof.
  intros HN Hperm.
  assert (Hsg : Permutation (in_edges g [4; 6]) edges_into_4_and_6).
  { unfold in_edges. simpl. rewrite app_nil_r.
    rewrite <- Hperm. apply filter_disjoint_perm.
    intros [u v] Hv. simpl in *. apply Nat.eqb_eq in Hv. subst v. reflexivity. }
  exists (to_block (in_edges g [4; 6]) [4; 6]).
  split; [| split; [| split]].
  - unfold FullNeighborBlockSampler.sample, bind.
    rewrite Full_iterate_grow.
    change (FullNeighborBlockSampler.num_layers (FullNeighborBlockSampler.init g 1)) with 1.
    change (FullNeighborBlockSampler.g (FullNeighborBlockSampler.init g 1)) with g.
    unfold repeat, grow, bind. change (dedup (fst ([4; 6], @nil Block))) with [4; 6].
    rewrite gather_Full_eq.
    assert (E : forallb (fun v => v <? number_of_nodes g) [4; 6] = true).
    { simpl. rewrite !andb_true_iff. repeat split; try apply Nat.ltb_lt; lia. }
    rewrite E. reflexivity.
  - reflexivity.
  - destruct (to_block_src_extends (in_edges g [4; 6]) [4; 6]) as [extra Hsrc].
    change (dedup [4; 6]) with [4; 6] in Hsrc. exists extra.
    split; [exact Hsrc |].
    pose proof (to_block_src_NoDup (in_edges g [4; 6]) [4; 6]) as Hnd.
    rewrite Hsrc in Hnd. simpl in Hnd.
    inversion Hnd as [| ? ? H4 Hnd1]; subst.
    inversion Hnd1 as [| ? ? H6 Hnd2]; subst.
    apply NoDup_Permutation; [exact Hnd2 | repeat constructor; simpl; lia |].
    intros x.
    assert (Hx : In x (src_global_ids (to_block (in_edges g [4; 6]) [4; 6])) <->
                 In x [4; 6] \/ In x (map fst edges_into_4_and_6)).
    { rewrite to_block_src_In. split; intros [H | H]; auto; right.
      - eapply Permutation_in; [apply Permutation_map, Hsg | exact H].
      - eapply Permutation_in; [apply Permutation_map, Permutation_sym, Hsg | exact H]. }
    rewrite Hsrc in Hx. destruct Hx as [Hx1 Hx2].
    clear - Hx1 Hx2 H4 H6. split; intros Hin.
    + assert (Hx : In x [4; 6] \/ In x (map fst edges_into_4_and_6))
        by (apply Hx1; right; right; exact Hin).
      assert (x <> 4) by (intros ->; apply H4; right; exact Hin).
      assert (x <> 6) by (intros ->; apply H6; exact Hin).
      simpl in Hx |- *. lia.
    + assert (Hx : In x (4 :: 6 :: extra))
        by (apply Hx2; right; simpl in Hin |- *; lia).
      simpl in Hin. destruct Hx as [E | [E | Hx]]; [lia | lia | exact Hx].
  - rewrite global_edges_to_block; [exact Hsg |].
    apply Forall_forall. intros e He. unfold in_edges in He.
    apply in_flat_map in He. destruct He as (v & Hv & He).
    apply filter_In in He. destruct He as [_ He]. apply Nat.eqb_eq in He.
    rewrite He. exact Hv.
Qed.

Lemma edge_correctness_full_witness :
  6 < number_of_nodes example_graph /\
  Permutation (filter (fun e => (snd e =? 4) || (snd e =? 6))
                      (all_edges example_graph))
              edges_into_4_and_6 /\
  exists b,
    FullNeighborBlockSampler.sample
      (FullNeighborBlockSampler.init example_graph 1) [4; 6] rs0 =
      inr ([b], rs0) /\
    dst_global_ids b = [4; 6] /\
    (exists rest, src_global_ids b = 4 :: 6 :: rest /\
                  Permutation rest [0; 2; 7]) /\
    Permutation (global_edges b) edges_into_4_and_6.
Proof.
  assert (HN : 6 < number_of_nodes example_graph) by (vm_compute; lia).
  assert (Hp : Permutation (filter (fun e => (snd e =? 4) || (snd e =? 6))
                                   (all_edges example_graph))
                           edges_into_4_and_6).
  { vm_compute. apply NoDup_Permutation.
    - repeat constructor; simpl; intuition congruence.
    - repeat constructor; simpl; intuition congruence.
    - intros x. simpl. tauto. }
  split; [exact HN | split; [exact Hp |]].
  apply (edge_correctness_full example_graph rs0 HN Hp).
Defined.

(** The notebook's recorded outputs (cells 4, 5 and 10) and the five-edge
    graph, by evaluation. *)
Example in_subgraph_cell_4 :
  run (in_subgraph example_graph sampled_node_batch) rs0 =
  Some [(0, 4); (2, 4); (7, 4); (0, 6); (2, 6)].
Proof. vm_compute. reflexivity. Qed.

Example print_block_info_cell_5 :
  option_map (fun sg => print_block_info (to_block sg sampled_node_batch))
             (run (in_subgraph example_graph sampled_node_batch) rs0) =
  Some ([4; 6; 0; 2; 7], [4; 6], ([0; 2; 7; 0; 2], [4; 4; 4; 6; 6])).
Proof. vm_compute. reflexivity. Qed.

Example print_block_info_cell_10 :
  option_map (map print_block_info)
             (run (FullNeighborBlockSampler.sample
                     (FullNeighborBlockSampler.init example_graph 2)
                     sampled_node_batch) rs0) =
  Some [([4; 6; 0; 2; 7; 8; 9; 10; 1; 3], [4; 6; 0; 2; 7],
         ([0; 2; 7; 0; 2; 2; 4; 6; 7; 8; 9; 10; 0; 4; 6; 1; 3; 0; 4],
          [4; 4; 4; 6; 6; 0; 0; 0; 0; 0; 0; 0; 2; 2; 2; 2; 2; 7; 7]));
        ([4; 6; 0; 2; 7], [4; 6], ([0; 2; 7; 0; 2], [4; 4; 4; 6; 6]))].
Proof. vm_compute. reflexivity. Qed.

Example five_edge_graph_block :
  option_map (map (fun b => (src_global_ids b, global_edges b)))
             (run (FullNeighborBlockSampler.sample
                     (FullNeighborBlockSampler.init five_edge_graph 1)
                     [4; 6]) rs0) =
  Some [([4; 6; 0; 2; 7], edges_into_4_and_6)].
Proof. vm_compute. reflexivity. Qed.

(** ** Fixed-fanout selection *)

Lemma remove_nth_length {A} (l : list A) i :
  i < length l -> length (remove_nth i l) = length l - 1.
Proof.
  revert i. induction l as [| x t IH]; intros i Hi; simpl in *; [lia |].
  destruct i as [| i]; simpl; [lia |].
  rewrite IH by lia. lia.
Qed.

Lemma draw_total {A} k (pool : list A) r :
  exists l r', draw k pool r = inr (l, r') /\
               length l = Nat.min k (length pool).
Proof.
  revert pool r. induction k as [| k IH]; intros pool r; cbn [draw].
  - exists [], r. split; reflexivity.
  - destruct pool as [| x t] eqn:Epool.
    + exists [], r. split; reflexivity.
    + rewrite <- Epool.
      assert (Hlen : 0 < length pool) by (rewrite Epool; simpl; lia).
      unfold bind, rand_below.
      set (i := rs_gen r (rs_pos r) mod length pool).
      assert (Hi : i < length pool) by (apply Nat.mod_upper_bound; lia).
      destruct (nth_error pool i) as [y |] eqn:Ey.
      2:{ apply nth_error_None in Ey. lia. }
      destruct (IH (remove_nth i pool) (mkRandomSource (rs_gen r) (S (rs_pos r))))
        as (l & r' & Hd & Hl).
      rewrite Hd. exists (y :: l), r'. split; [reflexivity |].
      change (length (y :: l)) with (S (length l)).
      rewrite Hl, remove_nth_length by exact Hi. lia.
Qed.

Lemma FixedFanout_total k v es r :
  exists l r', FixedFanout k v es r = inr (l, r') /\
               (0 <= k -> Z.of_nat (length l) = Z.min k (Z.of_nat (length es)))%Z.
Proof.
  unfold FixedFanout. destruct (Z.of_nat (length es) <=? k)%Z eqn:E.
  - exists es, r. split; [reflexivity |]. apply Z.leb_le in E. lia.
  - destruct (draw_total (Z.to_nat k) es r) as (l & r' & Hd & Hl).
    exists l, r'. split; [exact Hd |]. apply Z.leb_gt in E. lia.
Qed.

Lemma gather_count g k nodes r sg r' v :
  NoDup nodes ->
  (0 <= k)%Z ->
  gather g (FixedFanout k) nodes r = inr (sg, r') ->
  In v nodes ->
  Z.of_nat (length (filter (fun e => snd e =? v) sg)) =
  Z.min k (Z.of_nat (in_degree g v)).
Proof.
  intros Hnd Hk. revert r sg r'.
  induction Hnd as [| w ws Hw Hnd IH]; intros r sg r' H Hv; [destruct Hv |].
  simpl in H.
  apply bind_inr in H. destruct H as (inc & r1 & Hinc & H).
  apply bind_inr in H. destruct H as (chosen & r2 & Hsel & H).
  apply bind_inr in H. destruct H as (rest & r3 & Hrest & H).
  apply ret_inr in H. destruct H as [<- _].
  apply lift_inr in Hinc. destruct Hinc as [Hinc _].
  unfold neighbors_of in Hinc.
  destruct (w <? number_of_nodes g); [| discriminate].
  inversion Hinc; subst inc. clear Hinc.
  rewrite filter_app, length_app.
  destruct (Nat.eq_dec w v) as [-> | Hne].
  - assert (E1 : filter (fun e => snd e =? v) (map (fun p => (fst p, v)) chosen)
                 = map (fun p => (fst p, v)) chosen).
    { apply forallb_filter_id. apply forallb_forall. intros e He.
      apply in_map_iff in He. destruct He as (p & <- & _). simpl.
      apply Nat.eqb_refl. }
    assert (E2 : filter (fun e => snd e =? v) rest = []).
    { apply gather_dst_in in Hrest. rewrite Forall_forall in Hrest.
      clear - Hrest Hw. induction rest as [| e t IHt]; [reflexivity |].
      simpl. destruct (snd e =? v) eqn:E.
      - apply Nat.eqb_eq in E. exfalso. apply Hw. rewrite <- E.
        apply Hrest. left. reflexivity.
      - apply IHt. intros x Hx. apply Hrest. right. exact Hx. }
    rewrite E1, E2, length_map. simpl. rewrite Nat.add_0_r.
    destruct (FixedFanout_total k v (incident_edges g v) r1)
      as (l & r'' & Hf & Hl).
    rewrite Hsel in Hf. inversion Hf; subst. 
    rewrite Hl by exact Hk. rewrite incident_length. reflexivity.
  - assert (E1 : filter (fun e => snd e =? v) (map (fun p => (fst p, w)) chosen)
                 = []).
    { clear - Hne. induction chosen as [| p t IHt]; [reflexivity |].
      simpl. destruct (w =? v) eqn:E; [| exact IHt].
      apply Nat.eqb_eq in E. contradiction. }
    rewrite E1. simpl. destruct Hv as [Hv | Hv]; [contradiction |].
    apply (IH r2 rest r3 Hrest Hv).
Qed.

(** The edges of a block into its output node [j] are the kept edges into
    the [j]-th seed, in order. *)
Lemma block_edges_into sg seeds j :
  Forall (fun e => In (snd e) (dedup seeds)) sg ->
  j < length (dedup seeds) ->
  filter (fun e => snd e =? j) (block_edges (to_block sg seeds)) =
  map (fun e => (index_of (fst e) (src_global_ids (to_block sg seeds)),
                 index_of (snd e) (src_global_ids (to_block sg seeds))))
      (filter (fun e => snd e =? nth j (dedup seeds) 0) sg).
Proof.
  intros Hdst Hj.
  destruct (to_block_src_extends sg seeds) as [extra Hsrc].
  change (block_edges (to_block sg seeds))
    with (map (fun e => (index_of (fst e) (src_global_ids (to_block sg seeds)),
                         index_of (snd e) (src_global_ids (to_block sg seeds))))
              sg).
  rewrite filter_map_swap. f_equal.
  apply filter_ext_in. intros e He. cbn [snd].
  rewrite Forall_forall in Hdst. specialize (Hdst e He).
  rewrite Hsrc, index_of_app_l by exact Hdst.
  destruct (snd e =? nth j (dedup seeds) 0) eqn:E.
  - apply Nat.eqb_eq in E. rewrite E. apply Nat.eqb_eq.
    apply index_of_nth; [apply dedup_NoDup | exact Hj].
  - apply Nat.eqb_neq. intros Ei. apply Nat.eqb_neq in E. apply E.
    rewrite <- Ei. symmetry. apply nth_index_of, Hdst.
Qed.

Lemma block_in_degree_to_block sg seeds j :
  Forall (fun e => In (snd e) (dedup seeds)) sg ->
  j < length (dedup seeds) ->
  block_in_degree (to_block sg seeds) j =
  length (filter (fun e => snd e =? nth j (dedup seeds) 0) sg).
Proof.
  intros Hdst Hj. unfold block_in_degree.
  rewrite (block_edges_into sg seeds j Hdst Hj), length_map. reflexivity.
Qed.

(** C3, fanout bound.  In the block that the neighbor sampler builds for a
    layer with fanout [k >= 0], every output node has at most [k] incoming
    edges, and exactly the minimum of [k] and its in-degree in the
    original graph. *)
Theorem fanout_bound self seeds r chain r' i b k j :
  NeighborSampler.sample self seeds r = inr (chain, r') ->
  nth_error chain i = Some b ->
  nth_error (NeighborSampler.num_fanouts self) i = Some k ->
  (0 <= k)%Z ->
  j < number_of_dst_nodes b ->
  (Z.of_nat (block_in_degree b j) <= k)%Z /\
  Z.of_nat (block_in_degree b j) =
  Z.min k (Z.of_nat (in_degree (NeighborSampler.g self)
                               (nth j (dst_global_ids b) 0))).
Proof.
  intros H Hi Hfan Hk Hj.
  unfold NeighborSampler.sample in H.
  apply bind_inr in H. destruct H as ([s' c] & r1 & H & Hr).
  apply ret_inr in Hr. simpl in Hr. destruct Hr as [-> ->].
  rewrite Neighbor_iterate_grow in H.
  destruct (grow_chain_nth _ _ _ _ _ _ _ _ _ H Hi)
    as (sel & sj & rj & sg & rj' & Hlt & Hsel & _ & Hg & ->).
  rewrite length_map, length_rev in Hlt, Hsel.
  rewrite nth_error_map, nth_error_rev in Hsel.
  assert (Hlt' : (length (NeighborSampler.num_fanouts self) - 1 - i <?
                  length (NeighborSampler.num_fanouts self)) = true)
    by (apply Nat.ltb_lt; lia).
  rewrite Hlt' in Hsel.
  replace (length (NeighborSampler.num_fanouts self) -
           S (length (NeighborSampler.num_fanouts self) - 1 - i))
    with i in Hsel by lia.
  rewrite Hfan in Hsel. simpl in Hsel. inversion Hsel; subst sel. clear Hsel.
  unfold number_of_dst_nodes in Hj. rewrite to_block_dst in Hj |- *.
  rewrite block_in_degree_to_block;
    [| eapply gather_dst_in; exact Hg | exact Hj].
  assert (E := gather_count _ _ _ _ _ _ (nth j (dedup sj) 0)
                            (dedup_NoDup sj) Hk Hg (nth_In _ _ Hj)).
  split; [lia | exact E].
Qed.

Lemma fanout_bound_witness :
  exists chain b r',
    NeighborSampler.sample (NeighborSampler.mk example_graph [2%Z; 2%Z])
                           [4; 6] rs0 = inr (chain, r') /\
    nth_error chain 0 = Some b /\
    Z.of_nat (block_in_degree b 2) =
    Z.min 2 (Z.of_nat (in_degree example_graph (nth 2 (dst_global_ids b) 0))).
Proof.
  destruct (NeighborSampler.sample (NeighborSampler.mk example_graph [2%Z; 2%Z])
                                   [4; 6] rs0) as [e | [chain r']] eqn:H;
    [vm_compute in H; discriminate |].
  destruct (nth_error chain 0) as [b |] eqn:Hb.
  2:{ vm_compute in H. inversion H; subst. discriminate. }
  exists chain, b, r'. split; [reflexivity |]. split; [exact Hb |].
  apply (fanout_bound (NeighborSampler.mk example_graph [2%Z; 2%Z])
                      [4; 6] rs0 chain r' 0 b 2%Z 2 H Hb).
  - reflexivity.
  - lia.
  - vm_compute in H. inversion H; subst. vm_compute in Hb.
    inversion Hb; subst. vm_compute. lia.
Defined.

(** ** Layer-wise inference *)

Lemma bind_cong {A B} (m m' : M A) (k : A -> M B) r :
  m r = m' r -> bind m k r = bind m' k r.
Proof. unfold bind. intros ->. reflexivity. Qed.

Lemma mapM_ext {A B} (f f' : A -> M B) l r :
  (forall a, In a l -> forall r0, f a r0 = f' a r0) ->
  mapM f l r = mapM f' l r.
Proof.
  revert r. induction l as [| a t IH]; intros r H; simpl.
  - reflexivity.
  - unfold bind. rewrite (H a (or_introl eq_refl) r).
    destruct (f' a r) as [e | [b r1]]; [reflexivity |].
    rewrite IH; [reflexivity |]. intros x Hx. apply H. right. exact Hx.
Qed.

Lemma mapM_app {A B} (f : A -> M B) l1 l2 r :
  mapM f (l1 ++ l2) r =
  (xs <- mapM f l1 ;; ys <- mapM f l2 ;; ret (xs ++ ys)) r.
Proof.
  revert r. induction l1 as [| a t IH]; intros r; simpl.
  - unfold bind, ret. simpl. destruct (mapM f l2 r) as [e | [ys r1]]; reflexivity.
  - unfold bind. destruct (f a r) as [e | [b r1]]; [reflexivity |].
    rewrite IH. unfold bind, ret.
    destruct (mapM f t r1) as [e | [xs r2]]; [reflexivity |].
    destruct (mapM f l2 r2) as [e | [ys r3]]; reflexivity.
Qed.

Lemma mapM_concat {A B} (f : A -> M B) ls r :
  mapM f (concat ls) r = (xss <- mapM (mapM f) ls ;; ret (concat xss)) r.
Proof.
  revert r. induction ls as [| l t IH]; intros r; simpl.
  - reflexivity.
  - rewrite mapM_app. unfold bind, ret.
    destruct (mapM f l r) as [e | [xs r1]]; [reflexivity |].
    rewrite IH. unfold bind, ret.
    destruct (mapM (mapM f) t r1) as [e | [xss r2]]; reflexivity.
Qed.

Lemma mapM_map {A B C} (f : B -> M C) (h : A -> B) l r :
  mapM f (map h l) r = mapM (fun a => f (h a)) l r.
Proof.
  revert r. induction l as [| a t IH]; intros r; simpl.
  - reflexivity.
  - unfold bind. destruct (f (h a) r) as [e | [b r1]]; [reflexivity |].
    rewrite IH. reflexivity.
Qed.

Lemma seq_as_positions (l : list nat) :
  l = map (fun j => nth j l 0) (seq 0 (length l)).
Proof.
  induction l as [| x t IH]; simpl; [reflexivity |].
  f_equal. rewrite <- seq_shift, map_map. exact IH.
Qed.

Lemma index_rows_ext {T} (h h' : list T) ids ids' r :
  map (nth_error h) ids = map (nth_error h') ids' ->
  index_rows h ids r = index_rows h' ids' r.
Proof.
  revert ids' r. induction ids as [| i t IH]; intros [| i' t'] r H;
    simpl in H; try discriminate.
  - reflexivity.
  - inversion H as [[Hi Ht]]. unfold index_rows. simpl. unfold bind.
    rewrite Hi. destruct (lift_index (nth_error h' i') r) as [e | [x r1]];
      [reflexivity |].
    fold (index_rows h t). fold (index_rows h' t').
    rewrite (IH t' r1 Ht). reflexivity.
Qed.

Lemma index_rows_total {T} (h : list T) ids r :
  Forall (fun i => i < length h) ids ->
  exists rows, index_rows h ids r = inr (rows, r) /\
               length rows = length ids.
Proof.
  intros H. induction H as [| i t Hi _ IH].
  - exists []. split; reflexivity.
  - destruct IH as (rows & Hrows & Hlen).
    destruct (nth_error h i) as [x |] eqn:E.
    2:{ apply nth_error_None in E. lia. }
    exists (x :: rows). split; [| simpl; rewrite Hlen; reflexivity].
    unfold index_rows. simpl. unfold bind. rewrite E. simpl.
    fold (index_rows h t). rewrite Hrows. reflexivity.
Qed.

Lemma gathered_row {T} (h rows : list T) ids j :
  map (nth_error h) ids = map Some rows ->
  j < length ids ->
  nth_error rows j = nth_error h (nth j ids 0).
Proof.
  revert rows j. induction ids as [| i t IH]; intros [| x xs] j H Hj;
    simpl in *; try discriminate; try lia.
  inversion H as [[Hi Ht]]. destruct j as [| j]; simpl.
  - symmetry. exact Hi.
  - apply IH; [exact Ht | lia].
Qed.

Lemma NoDup_firstn_skipn {A} (l : list A) n m :
  NoDup l -> NoDup (firstn n (skipn m l)).
Proof.
  intros H. rewrite <- (firstn_skipn m l) in H.
  apply NoDup_app_remove_l in H.
  rewrite <- (firstn_skipn n (skipn m l)) in H.
  apply NoDup_app_remove_r in H. exact H.
Qed.

Lemma In_firstn_skipn {A} (l : list A) n m x :
  In x (firstn n (skipn m l)) -> In x l.
Proof.
  intros H. rewrite <- (firstn_skipn m l). apply in_or_app. right.
  rewrite <- (firstn_skipn n (skipn m l)). apply in_or_app. left. exact H.
Qed.

Lemma firstn_plus {A} (l : list A) a c :
  firstn (a + c) l = firstn a l ++ firstn c (skipn a l).
Proof.
  revert l. induction a as [| a IH]; intros [| x t]; simpl;
    try reflexivity.
  - rewrite firstn_nil. reflexivity.
  - rewrite IH. reflexivity.
Qed.

(** The sequential batches of [range(0, N, batch_size)] partition the node
    ids in order. *)
Lemma batches_partition (l : list nat) batch_size :
  0 < batch_size ->
  concat (map (fun s => firstn batch_size (skipn s l))
              (range_step (length l) batch_size)) = l.
Proof.
  intros Hb. unfold range_step. rewrite map_map.
  assert (Hm : forall m,
             concat (map (fun i => firstn batch_size (skipn (i * batch_size) l))
                         (seq 0 m)) = firstn (m * batch_size) l).
  { induction m as [| m IH]; [reflexivity |].
    rewrite seq_S, map_app, concat_app, IH. simpl.
    rewrite app_nil_r, (Nat.add_comm batch_size), firstn_plus. reflexivity. }
  rewrite Hm. apply firstn_all2.
  pose proof (Nat.div_mod_eq (length l + batch_size - 1) batch_size) as E.
  pose proof (Nat.mod_upper_bound (length l + batch_size - 1) batch_size) as U.
  nia.
Qed.

Lemma in_edges_dst g nodes e : In e (in_edges g nodes) -> In (snd e) nodes.
Proof.
  unfold in_edges. intros He. apply in_flat_map in He.
  destruct He as (v & Hv & He). apply filter_In in He.
  destruct He as [_ He]. apply Nat.eqb_eq in He. rewrite He. exact Hv.
Qed.

Lemma in_edges_subset g nodes e : In e (in_edges g nodes) -> In e (all_edges g).
Proof.
  unfold in_edges. intros He. apply in_flat_map in He.
  destruct He as (v & _ & He). apply filter_In in He. apply He.
Qed.

Lemma filter_none {A} (p : A -> bool) l :
  (forall x, In x l -> p x = false) -> filter p l = [].
Proof.
  induction l as [| a t IH]; intros H; simpl; [reflexivity |].
  rewrite (H a (or_introl eq_refl)). apply IH.
  intros x Hx. apply H. right. exact Hx.
Qed.

Lemma in_edges_filter g nodes v :
  NoDup nodes ->
  In v nodes ->
  filter (fun e => snd e =? v) (in_edges g nodes) =
  filter (fun e => snd e =? v) (all_edges g).
Proof.
  intros Hnd. induction Hnd as [| w ws Hw Hnd IH]; intros Hv; [destruct Hv |].
  change (in_edges g (w :: ws))
    with (filter (fun e => snd e =? w) (all_edges g) ++ in_edges g ws).
  rewrite filter_app. destruct (Nat.eq_dec w v) as [-> | Hne].
  - rewrite (filter_none (fun e => snd e =? v) (in_edges g ws)).
    + rewrite app_nil_r. apply forallb_filter_id. apply forallb_forall.
      intros e He. apply filter_In in He. apply He.
    + intros e He. apply Nat.eqb_neq. intros E. apply Hw. rewrite <- E.
      apply (in_edges_dst g ws e He).
  - rewrite (filter_none (fun e => snd e =? v)
                         (filter (fun e => snd e =? w) (all_edges g))).
    + destruct Hv as [Hv | Hv]; [contradiction |]. apply IH, Hv.
    + intros e He. apply filter_In in He. destruct He as [_ He].
      apply Nat.eqb_eq in He. apply Nat.eqb_neq. congruence.
Qed.

Lemma Full_sample_one g batch r :
  Forall (fun v => v < number_of_nodes g) batch ->
  FullNeighborBlockSampler.sample (FullNeighborBlockSampler.init g 1) batch r =
  inr ([to_block (in_edges g (dedup batch)) batch], r).
Proof.
  intros Hr. unfold FullNeighborBlockSampler.sample.
  unfold bind. rewrite Full_iterate_grow.
  change (FullNeighborBlockSampler.num_layers (FullNeighborBlockSampler.init g 1))
    with 1.
  change (FullNeighborBlockSampler.g (FullNeighborBlockSampler.init g 1)) with g.
  unfold repeat, grow, bind. cbn [fst snd]. rewrite gather_Full_eq.
  assert (E : forallb (fun v => v <? number_of_nodes g) (dedup batch) = true).
  { apply forallb_forall. intros v Hv. apply (proj1 (dedup_In _ _)) in Hv.
    rewrite Forall_forall in Hr. apply Nat.ltb_lt, Hr, Hv. }
  rewrite E. reflexivity.
Qed.

(** The rows of a layer, node by node: aggregating for all output nodes and
    then updating every row is updating the output nodes one after the
    other. *)
Lemma rows_then_update {T} (G : nat -> M T) (layer : Layer T) xs s r :
  (x_neigh <- mapM G (seq s (length xs)) ;;
   ret (map (fun p => layer (fst p) (snd p)) (combine xs x_neigh))) r =
  mapM (fun j => own <- lift_index (nth_error xs (j - s)) ;;
                 m <- G j ;; ret (layer own m))
       (seq s (length xs)) r.
Proof.
  revert s r. induction xs as [| x xs IH]; intros s r.
  - reflexivity.
  - cbn [length seq mapM].
    assert (E : forall r1,
               mapM (fun j => own <- lift_index (nth_error (x :: xs) (j - s)) ;;
                              m <- G j ;; ret (layer own m))
                    (seq (S s) (length xs)) r1 =
               mapM (fun j => own <- lift_index (nth_error xs (j - S s)) ;;
                              m <- G j ;; ret (layer own m))
                    (seq (S s) (length xs)) r1).
    { intros r1. apply mapM_ext. intros j Hj r0. apply in_seq in Hj.
      replace (j - s) with (S (j - S s)) by lia. reflexivity. }
    rewrite Nat.sub_diag. cbn [nth_error lift_index].
    unfold bind, ret in *.
    destruct (G s r) as [e | [m r1]]; [reflexivity |].
    rewrite E, <- IH.
    destruct (mapM G (seq (S s) (length xs)) r1) as [e | [ms r2]];
      reflexivity.
Qed.

Lemma forward_as_rows (T : Type) (mean : list T -> T) (layer : Layer T)
      (g : Block) (x_src x_dst : list T) r :
  length x_src = number_of_src_nodes g ->
  length x_dst = number_of_dst_nodes g ->
  SAGEConvBipartite.forward mean layer g (x_src, x_dst) r =
  mapM (block_node_update mean layer g x_src x_dst)
       (seq 0 (number_of_dst_nodes g)) r.
Proof.
  intros Hs Hd. unfold SAGEConvBipartite.forward.
  rewrite Hs, Nat.eqb_refl. rewrite <- Hd, Nat.eqb_refl.
  rewrite rows_then_update. apply mapM_ext. intros j _ r0.
  rewrite Nat.sub_0_r. unfold block_node_update.
  apply bind_ext. intros own r1. rewrite bind_bind. reflexivity.
Qed.

Lemma range_step_nonempty stop step :
  0 < stop -> 0 < step -> range_step stop step <> [].
Proof.
  intros Hs Hb. unfold range_step.
  assert (H : 0 < (stop + step - 1) / step)
    by (apply Nat.div_str_pos; lia).
  destruct ((stop + step - 1) / step) as [| n]; [lia |].
  discriminate.
Qed.

(** [torch.cat] on the outputs of a non-empty sequence of batches. *)
Lemma torch_cat_batches {A B T} (f : A -> M (list T))
      (k : list T -> M B) starts r :
  starts <> [] ->
  (outs <- mapM f starts ;; h' <- torch_cat outs ;; k h') r =
  (outs <- mapM f starts ;; k (concat outs)) r.
Proof.
  intros Hne. destruct starts as [| s t]; [contradiction |].
  cbn [mapM]. unfold bind.
  destruct (f s r) as [e | [b r1]]; [reflexivity |].
  destruct (mapM f t r1) as [e | [bs r2]]; reflexivity.
Qed.

Section InferenceProofs.

Variable T : Type.
Variable mean : list T -> T.
Variable conv : Layer T.
Variable g : Graph.
Variable h : list T.
Hypothesis Hwf : wf_graph g.
Hypothesis Hh : length h = number_of_nodes g.

(** One batch: the block route computes the node updates of the batch. *)
Lemma batch_output_eq batch r :
  NoDup batch ->
  Forall (fun v => v < number_of_nodes g) batch ->
  batch_output mean conv g h batch r = mapM (node_update mean conv g h) batch r.
Proof.
  intros Hnd Hr. unfold batch_output.
  erewrite bind_run by (apply Full_sample_one, Hr).
  unfold lift_index at 1. cbn [nth_error]. unfold bind at 1, ret at 1.
  rewrite (dedup_fixed batch Hnd).
  set (sg := in_edges g batch). set (b := to_block sg batch).
  assert (Hdst : Forall (fun e => In (snd e) (dedup batch)) sg).
  { apply Forall_forall. intros e He. apply dedup_In.
    apply (in_edges_dst g batch e He). }
  destruct (to_block_src_extends sg batch) as [extra Hsrc]. fold b in Hsrc.
  rewrite (dedup_fixed batch Hnd) in Hsrc.
  assert (Hin : Forall (fun i => i < length h) (src_global_ids b)).
  { apply Forall_forall. intros i Hi. apply to_block_src_In in Hi.
    rewrite Hh. destruct Hi as [Hi | Hi].
    - rewrite Forall_forall in Hr. apply Hr, Hi.
    - apply in_map_iff in Hi. destruct Hi as (e & <- & He).
      apply in_edges_subset in He. unfold wf_graph in Hwf.
      rewrite Forall_forall in Hwf. apply (Hwf e He). }
  destruct (index_rows_total h (src_global_ids b) r Hin)
    as (h_input & Hrows & Hlen).
  erewrite bind_run by exact Hrows.
  apply index_rows_inr in Hrows. destruct Hrows as [_ Hmap].
  assert (Hd : number_of_dst_nodes b = length batch).
  { unfold number_of_dst_nodes, b. rewrite to_block_dst, dedup_fixed by exact Hnd.
    reflexivity. }
  unfold SAGENet.propagate.
  rewrite forward_as_rows;
    [| exact Hlen
     | rewrite length_firstn, Hlen, Hsrc, length_app; lia].
  rewrite Hd.
  assert (ER : mapM (node_update mean conv g h) batch r =
               mapM (fun j => node_update mean conv g h (nth j batch 0))
                    (seq 0 (length batch)) r).
  { rewrite <- (mapM_map (node_update mean conv g h)
                         (fun j => nth j batch 0)).
    rewrite <- seq_as_positions. reflexivity. }
  rewrite ER. clear ER.
  apply mapM_ext. intros j Hj r0. apply in_seq in Hj.
  assert (Hj' : j < length (dedup batch))
    by (rewrite dedup_fixed by exact Hnd; lia).
  assert (Hjs : j < length (src_global_ids b))
    by (rewrite Hsrc, length_app; lia).
  unfold node_update, block_node_update.
  assert (Eown : nth_error (firstn (length batch) h_input) j =
                 nth_error h (nth j batch 0)).
  { rewrite nth_error_firstn.
    destruct (j <? length batch) eqn:E; [| apply Nat.ltb_ge in E; lia].
    rewrite (gathered_row h h_input (src_global_ids b) j Hmap Hjs).
    rewrite Hsrc, app_nth1 by lia. reflexivity. }
  rewrite Eown. apply bind_ext. intros own r1. apply bind_cong.
  apply index_rows_ext.
  pose proof (block_edges_into sg batch j Hdst Hj') as Ebe.
  fold b in Ebe. rewrite (dedup_fixed batch Hnd) in Ebe. rewrite Ebe.
  assert (Hv : In (nth j batch 0) batch) by (apply nth_In; lia).
  rewrite !map_map. cbn [fst].
  rewrite <- (in_edges_filter g batch (nth j batch 0) Hnd Hv). fold sg.
  apply map_ext_in. intros e He. apply filter_In in He.
  destruct He as [He _].
  assert (Hu : In (fst e) (src_global_ids b)).
  { apply to_block_src_In. right. apply in_map, He. }
  rewrite (gathered_row h h_input (src_global_ids b) _ Hmap
                        (index_of_lt _ _ Hu)).
  rewrite nth_index_of by exact Hu. reflexivity.
Qed.


Lemma inference_batches_eq batch_size starts acc r :
  inference_batches mean (FullNeighborBlockSampler.init g 1) conv h
                    (seq 0 (number_of_nodes g)) batch_size starts acc r =
  (outs <- mapM (fun s => mapM (node_update mean conv g h)
                            (firstn batch_size
                                    (skipn s (seq 0 (number_of_nodes g)))))
                starts ;;
   ret (acc ++ outs)) r.
Proof.
  revert acc r. induction starts as [| s rest IH]; intros acc r.
  - simpl. unfold bind, ret. rewrite app_nil_r. reflexivity.
  - set (batch := firstn batch_size (skipn s (seq 0 (number_of_nodes g)))).
    assert (Hnd : NoDup batch) by (apply NoDup_firstn_skipn, seq_NoDup).
    assert (Hr : Forall (fun v => v < number_of_nodes g) batch).
    { apply Forall_forall. intros v Hv. apply In_firstn_skipn in Hv.
      apply in_seq in Hv. lia. }
    transitivity
      (bind (batch_output mean conv g h batch)
            (fun new_h =>
               inference_batches mean (FullNeighborBlockSampler.init g 1)
                                 conv h (seq 0 (number_of_nodes g))
                                 batch_size rest (acc ++ [new_h])) r).
    + unfold batch_output. cbn [inference_batches]. fold batch.
      rewrite bind_bind. apply bind_ext. intros blocks r1.
      rewrite bind_bind. apply bind_ext. intros block r2.
      rewrite bind_bind. reflexivity.
    + rewrite (bind_cong _ _ _ _ (batch_output_eq batch r Hnd Hr)).
      cbn [mapM]. fold batch. rewrite (bind_bind (mapM _ batch)).
      apply bind_ext. intros new_h r1.
      rewrite IH, bind_bind. apply bind_ext. intros outs r2.
      unfold bind, ret. rewrite <- app_assoc. reflexivity.
Qed.

Lemma node_update_total v r :
  v < number_of_nodes g ->
  exists y, node_update mean conv g h v r = inr (y, r).
Proof.
  intros Hv. unfold node_update.
  destruct (nth_error h v) as [own |] eqn:E.
  2:{ apply nth_error_None in E. lia. }
  assert (Hin : Forall (fun i => i < length h)
                       (map fst (filter (fun e => snd e =? v) (all_edges g)))).
  { apply Forall_forall. intros i Hi. apply in_map_iff in Hi.
    destruct Hi as (e & <- & He). apply filter_In in He.
    unfold wf_graph in Hwf. rewrite Forall_forall in Hwf.
    rewrite Hh. apply (Hwf e), He. }
  destruct (index_rows_total h _ r Hin) as (messages & Hm & _).
  exists (conv own (mean messages)).
  unfold bind. simpl. rewrite Hm. reflexivity.
Qed.

Lemma node_updates_total nodes r :
  Forall (fun v => v < number_of_nodes g) nodes ->
  exists out, mapM (node_update mean conv g h) nodes r = inr (out, r) /\
              length out = length nodes.
Proof.
  intros H. induction H as [| v vs Hv _ IH].
  - exists []. split; reflexivity.
  - destruct (node_update_total v r Hv) as [y Hy].
    destruct IH as (out & Hout & Hlen).
    exists (y :: out). split; [| simpl; rewrite Hlen; reflexivity].
    simpl. unfold bind. rewrite Hy, Hout. reflexivity.
Qed.

Lemma layer_on_graph_eq r :
  layer_on_graph mean conv g h r =
  mapM (node_update mean conv g h) (seq 0 (number_of_nodes g)) r.
Proof.
  unfold layer_on_graph.
  rewrite forward_as_rows;
    [| unfold graph_as_block, number_of_src_nodes; cbn [src_global_ids];
       rewrite length_seq; exact Hh
     | unfold graph_as_block, number_of_dst_nodes; cbn [dst_global_ids];
       rewrite length_seq; exact Hh].
  unfold graph_as_block, number_of_dst_nodes.
  cbn [dst_global_ids]. rewrite length_seq. reflexivity.
Qed.

Lemma inference_one_layer_eq batch_size r :
  0 < batch_size ->
  0 < number_of_nodes g ->
  inference_with_sagenet mean (SAGENet.mk [conv]) g h batch_size r =
  layer_on_graph mean conv g h r.
Proof.
  intros Hb Hn. unfold inference_with_sagenet.
  cbn [SAGENet.convs inference_layers].
  destruct (batch_size =? 0) eqn:E; [apply Nat.eqb_eq in E; lia |].
  rewrite (bind_cong _ _ _ _ (inference_batches_eq batch_size _ [] r)).
  rewrite bind_bind.
  match goal with
  | |- bind ?m _ _ = _ =>
      transitivity (bind m (fun outs => h' <- torch_cat outs ;; ret h') r);
        [apply bind_ext; intros outs r1; reflexivity |]
  end.
  rewrite torch_cat_batches by (apply range_step_nonempty; assumption).
  rewrite layer_on_graph_eq.
  pose proof (batches_partition (seq 0 (number_of_nodes g)) batch_size Hb)
    as P.
  rewrite length_seq in P.
  transitivity
    (mapM (node_update mean conv g h)
          (concat (map (fun s => firstn batch_size
                                   (skipn s (seq 0 (number_of_nodes g))))
                       (range_step (number_of_nodes g) batch_size))) r);
    [| rewrite P; reflexivity].
  rewrite mapM_concat.
  rewrite (bind_cong _ _ _ _ (mapM_map _ _ _ r)).
  apply bind_ext. intros outs r1. reflexivity.
Qed.

End InferenceProofs.

(** C9, inference consistency.  For a one-layer model on a well-formed
    graph with at least one node and one feature row per node, layer-wise
    inference with any positive batch size returns, for every node, the
    same output as one application of the layer over the whole graph with
    no batching; both succeed and return one row per node. *)
Theorem inference_consistency (T : Type) (mean : list T -> T) (conv : Layer T)
        (g : Graph) (h : list T) (batch_size : nat) (r : RandomSource) :
  wf_graph g ->
  0 < number_of_nodes g ->
  length h = number_of_nodes g ->
  0 < batch_size ->
  exists out,
    inference_with_sagenet mean (SAGENet.mk [conv]) g h batch_size r =
      inr (out, r) /\
    layer_on_graph mean conv g h r = inr (out, r) /\
    length out = number_of_nodes g.
Proof.
  intros Hwf Hn Hh Hb.
  assert (Hr : Forall (fun v => v < number_of_nodes g)
                      (seq 0 (number_of_nodes g))).
  { apply Forall_forall. intros v Hv. apply in_seq in Hv. lia. }
  destruct (node_updates_total T mean conv g h Hwf Hh _ r Hr)
    as (out & Hout & Hlen).
  exists out. rewrite inference_one_layer_eq by assumption.
  rewrite layer_on_graph_eq by assumption.
  rewrite length_seq in Hlen. auto.
Qed.

Lemma inference_consistency_witness :
  wf_graph example_graph /\
  0 < number_of_nodes example_graph /\
  exists out,
    inference_with_sagenet (@concat nat)
      (SAGENet.mk [fun own neigh => own ++ 99 :: neigh]) example_graph
      (map (fun i => [i]) (seq 0 12)) 5 rs0 = inr (out, rs0) /\
    layer_on_graph (@concat nat) (fun own neigh => own ++ 99 :: neigh)
      example_graph (map (fun i => [i]) (seq 0 12)) rs0 = inr (out, rs0) /\
    length out = 12.
Proof.
  assert (Hwf : wf_graph example_graph).
  { unfold wf_graph. vm_compute. repeat constructor. }
  assert (Hn : 0 < number_of_nodes example_graph) by (vm_compute; lia).
  split; [exact Hwf |]. split; [exact Hn |].
  apply (inference_consistency (list nat) (@concat nat)
           (fun own neigh => own ++ 99 :: neigh) example_graph
           (map (fun i => [i]) (seq 0 12)) 5 rs0 Hwf Hn).
  - reflexivity.
  - lia.
Defined.

(** ** The samplers succeed on in-range seeds *)

Lemma remove_nth_incl {A} (l : list A) i : incl (remove_nth i l) l.
Proof.
  revert i. induction l as [| x t IH]; intros [| i] y Hy; simpl in *;
    try exact Hy.
  - right. exact Hy.
  - destruct Hy as [-> | Hy]; [left; reflexivity | right; apply (IH i), Hy].
Qed.

Lemma draw_incl {A} k (pool l : list A) r r' :
  draw k pool r = inr (l, r') -> incl l pool.
Proof.
  revert pool l r r'. induction k as [| k IH]; intros pool l r r' H;
    cbn [draw] in H.
  - apply ret_inr in H. destruct H as [<- _]. intros x [].
  - destruct pool as [| x t] eqn:Epool.
    + apply ret_inr in H. destruct H as [<- _]. intros y [].
    + rewrite <- Epool in *. clear Epool x t.
      apply bind_inr in H. destruct H as (i & r1 & _ & H).
      destruct (nth_error pool i) as [y |] eqn:Ey.
      * apply bind_inr in H. destruct H as (rest & r2 & Hrest & H).
        apply ret_inr in H. destruct H as [<- _].
        intros z [<- | Hz].
        -- eapply nth_error_In, Ey.
        -- apply (remove_nth_incl pool i). apply (IH _ _ _ _ Hrest), Hz.
      * apply ret_inr in H. destruct H as [<- _]. intros z [].
Qed.

Lemma Full_good : good_selector Full.
Proof. intros v es r. exists es, r. split; [reflexivity | apply incl_refl]. Qed.

Lemma FixedFanout_good k : good_selector (FixedFanout k).
Proof.
  intros v es r. destruct (FixedFanout_total k v es r) as (l & r' & H & _).
  exists l, r'. split; [exact H |].
  unfold FixedFanout in H. destruct (Z.of_nat (length es) <=? k)%Z.
  - apply ret_inr in H. destruct H as [<- _]. apply incl_refl.
  - apply (draw_incl _ _ _ _ _ H).
Qed.

Lemma gather_total g sel nodes r :
  good_selector sel ->
  Forall (fun v => v < number_of_nodes g) nodes ->
  exists sg r', gather g sel nodes r = inr (sg, r') /\
                Forall (fun e => In e (all_edges g)) sg.
Proof.
  intros Hsel Hr. revert r. induction Hr as [| v vs Hv _ IH]; intros r.
  - exists [], r. split; [reflexivity | constructor].
  - cbn [gather]. unfold neighbors_of.
    apply Nat.ltb_lt in Hv. rewrite Hv. unfold lift. unfold bind at 1, ret at 1.
    destruct (Hsel v (incident_edges g v) r) as (chosen & r1 & Hc & Hincl).
    unfold bind at 1. rewrite Hc.
    destruct (IH r1) as (rest & r2 & Hrest & Hin).
    unfold bind. rewrite Hrest. eexists _, r2. split; [reflexivity |].
    apply Forall_app. split; [| exact Hin].
    apply Forall_forall. intros e He. apply in_map_iff in He.
    destruct He as (p & <- & Hp). apply Hincl in Hp.
    assert (Hf : In (fst p, v) (filter (fun e => snd e =? v) (all_edges g))).
    { rewrite <- incident_as_filter. apply in_map_iff. exists p.
      split; [reflexivity | exact Hp]. }
    apply filter_In in Hf. apply Hf.
Qed.

Lemma grow_total g sels st r :
  wf_graph g ->
  Forall good_selector sels ->
  Forall (fun v => v < number_of_nodes g) (fst st) ->
  exists st' r', grow g sels st r = inr (st', r').
Proof.
  intros Hwf Hsels. revert st r.
  induction Hsels as [| sel rest Hsel _ IH]; intros st r Hr.
  - exists st, r. reflexivity.
  - cbn [grow].
    assert (Hd : Forall (fun v => v < number_of_nodes g) (dedup (fst st))).
    { apply Forall_forall. intros v Hv. apply (proj1 (dedup_In _ _)) in Hv.
      rewrite Forall_forall in Hr. apply Hr, Hv. }
    destruct (gather_total g sel (dedup (fst st)) r Hsel Hd)
      as (sg & r1 & Hg & Hin).
    unfold bind. rewrite Hg. apply IH. cbn [fst].
    apply Forall_forall. intros x Hx. apply to_block_src_In in Hx.
    destruct Hx as [Hx | Hx].
    + rewrite Forall_forall in Hr. apply Hr, Hx.
    + apply in_map_iff in Hx. destruct Hx as (e & <- & He).
      rewrite Forall_forall in Hin. unfold wf_graph in Hwf.
      rewrite Forall_forall in Hwf. apply (Hwf e), Hin, He.
Qed.

(** On a well-formed graph, both samplers return a chain for every seed
    collection whose ids are node ids of the graph: the full-neighbor
    sampler for any number of layers, the neighbor sampler for any list of
    non-negative fanouts. *)
Theorem sampling_succeeds g seeds :
  wf_graph g ->
  Forall (fun v => v < number_of_nodes g) seeds ->
  (forall num_layers r,
      exists chain r',
        FullNeighborBlockSampler.sample
          (FullNeighborBlockSampler.init g num_layers) seeds r =
        inr (chain, r')) /\
  (forall num_fanouts r,
      Forall (fun k => (0 <= k)%Z) num_fanouts ->
      exists chain r',
        NeighborSampler.sample (NeighborSampler.mk g num_fanouts) seeds r =
        inr (chain, r')).
Proof.
  intros Hwf Hr. split.
  - intros L r.
    assert (Hs : Forall good_selector (repeat Full L)).
    { apply Forall_forall. intros sel Hin. apply repeat_spec in Hin.
      subst sel. apply Full_good. }
    destruct (grow_total g _ (seeds, []) r Hwf Hs Hr) as ([s' chain] & r' & H).
    exists chain, r'. unfold FullNeighborBlockSampler.sample, bind.
    rewrite Full_iterate_grow. cbn [FullNeighborBlockSampler.g
                                      FullNeighborBlockSampler.num_layers].
    rewrite H. reflexivity.
  - intros fs r _.
    assert (Hs : Forall good_selector (map FixedFanout (rev fs))).
    { apply Forall_forall. intros sel Hin. apply in_map_iff in Hin.
      destruct Hin as (k & <- & _). apply FixedFanout_good. }
    destruct (grow_total g _ (seeds, []) r Hwf Hs Hr) as ([s' chain] & r' & H).
    exists chain, r'. unfold NeighborSampler.sample, bind.
    rewrite Neighbor_iterate_grow. cbn [NeighborSampler.g
                                          NeighborSampler.num_fanouts].
    rewrite H. reflexivity.
Qed.

(** * Further properties of the notebook's code *)

(** ** Blocks and what [print_block_info] shows *)

Lemma to_block_dedup sg seeds : to_block sg (dedup seeds) = to_block sg seeds.
Proof.
  unfold to_block. rewrite (dedup_fixed (dedup seeds) (dedup_NoDup seeds)).
  reflexivity.
Qed.

Lemma to_block_in_bounds sg seeds :
  Forall (fun e => In (snd e) (dedup seeds)) sg ->
  block_in_bounds (to_block sg seeds).
Proof.
  intros Hdst. unfold block_in_bounds, number_of_dst_nodes, number_of_src_nodes.
  destruct (to_block_src_extends sg seeds) as [extra Hsrc].
  rewrite to_block_dst. split.
  - rewrite Hsrc, length_app. lia.
  - change (block_edges (to_block sg seeds))
      with (map (fun e => (index_of (fst e) (src_global_ids (to_block sg seeds)),
                           index_of (snd e) (src_global_ids (to_block sg seeds))))
                sg).
    apply Forall_forall. intros e He. apply in_map_iff in He.
    destruct He as (e0 & <- & He0). cbn [fst snd].
    rewrite Forall_forall in Hdst. specialize (Hdst e0 He0). split.
    + apply index_of_lt. apply to_block_src_In. right. apply in_map, He0.
    + rewrite Hsrc, index_of_app_l by exact Hdst. apply index_of_lt, Hdst.
Qed.

Lemma gather_sound g sel nodes r sg r' :
  good_selector sel ->
  gather g sel nodes r = inr (sg, r') ->
  Forall (fun e => In e (all_edges g)) sg.
Proof.
  intros Hsel. revert r sg r'.
  induction nodes as [| v vs IH]; intros r sg r' H; simpl in H.
  - apply ret_inr in H. destruct H as [<- _]. constructor.
  - apply bind_inr in H. destruct H as (inc & r1 & Hinc & H).
    apply bind_inr in H. destruct H as (chosen & r2 & Hc & H).
    apply bind_inr in H. destruct H as (rest & r3 & Hrest & H).
    apply ret_inr in H. destruct H as [<- _].
    apply lift_inr in Hinc. destruct Hinc as [Hinc _].
    unfold neighbors_of in Hinc.
    destruct (v <? number_of_nodes g); [| discriminate].
    inversion Hinc; subst inc. clear Hinc.
    destruct (Hsel v (incident_edges g v) r1) as (l & r'' & Hl & Hincl).
    rewrite Hc in Hl. inversion Hl; subst l r''. clear Hl.
    apply Forall_app. split; [| apply (IH _ _ _ Hrest)].
    apply Forall_forall. intros e He. apply in_map_iff in He.
    destruct He as (p & <- & Hp). apply Hincl in Hp.
    assert (Hf : In (fst p, v) (filter (fun e => snd e =? v) (all_edges g))).
    { rewrite <- incident_as_filter. apply in_map_iff. exists p.
      split; [reflexivity | exact Hp]. }
    apply filter_In in Hf. apply Hf.
Qed.

(** The blocks of a neighbor-sampler chain, with the kept edges. *)
Lemma neighbor_block_shape self seeds r chain r' b :
  NeighborSampler.sample self seeds r = inr (chain, r') ->
  In b chain ->
  exists sg sj,
    b = to_block sg sj /\
    Forall (fun e => In (snd e) (dedup sj)) sg /\
    Forall (fun e => In e (all_edges (NeighborSampler.g self))) sg.
Proof.
  intros H Hb. unfold NeighborSampler.sample in H.
  apply bind_inr in H. destruct H as ([s' c] & r1 & H & Hr).
  apply ret_inr in Hr. simpl in Hr. destruct Hr as [-> ->].
  rewrite Neighbor_iterate_grow in H.
  apply In_nth_error in Hb. destruct Hb as [i Hi].
  destruct (grow_chain_nth _ _ _ _ _ _ _ _ _ H Hi)
    as (sel & sj & rj & sg & rj' & _ & Hsel & _ & Hg & ->).
  exists sg, sj. split; [reflexivity |]. split.
  - apply (gather_dst_in _ _ _ _ _ _ Hg).
  - apply nth_error_In in Hsel. apply in_map_iff in Hsel.
    destruct Hsel as (k & <- & _).
    apply (gather_sound _ _ _ _ _ _ (FixedFanout_good k) Hg).
Qed.

(** The blocks of a full-neighbor chain: all edges into the block's seeds. *)
Lemma full_block_shape self seeds r chain r' b :
  FullNeighborBlockSampler.sample self seeds r = inr (chain, r') ->
  In b chain ->
  exists sj,
    b = to_block (in_edges (FullNeighborBlockSampler.g self) (dedup sj)) sj /\
    Forall (fun v => v < number_of_nodes (FullNeighborBlockSampler.g self))
           (dedup sj).
Proof.
  intros H Hb. unfold FullNeighborBlockSampler.sample in H.
  apply bind_inr in H. destruct H as ([s' c] & r1 & H & Hr).
  apply ret_inr in Hr. simpl in Hr. destruct Hr as [-> ->].
  rewrite Full_iterate_grow in H.
  apply In_nth_error in Hb. destruct Hb as [i Hi].
  destruct (grow_chain_nth _ _ _ _ _ _ _ _ _ H Hi)
    as (sel & sj & rj & sg & rj' & _ & Hsel & _ & Hg & ->).
  apply nth_error_In, repeat_spec in Hsel. subst sel.
  rewrite gather_Full_eq in Hg.
  destruct (forallb _ (dedup sj)) eqn:E; [| discriminate].
  inversion Hg; subst sg rj'. exists sj. split; [reflexivity |].
  apply Forall_forall. intros v Hv. rewrite forallb_forall in E.
  apply Nat.ltb_lt, E, Hv.
Qed.

(** In every block of a chain returned by a sampler the edges stay within
    the block's index spaces (so the indexing of [print_block_info] never
    leaves the id lists) and there are at most as many output nodes as
    input nodes. *)
Theorem sampled_blocks_in_bounds chain b :
  sampled_chain chain -> In b chain -> block_in_bounds b.
Proof.
  intros Hc Hb. apply sampled_chain_grow in Hc.
  destruct Hc as (g & sels & seeds & r & s' & r' & H).
  apply In_nth_error in Hb. destruct Hb as [i Hi].
  destruct (grow_chain_nth _ _ _ _ _ _ _ _ _ H Hi)
    as (sel & sj & rj & sg & rj' & _ & _ & _ & Hg & ->).
  apply to_block_in_bounds. apply (gather_dst_in _ _ _ _ _ _ Hg).
Qed.

Lemma sampled_blocks_in_bounds_witness :
  sampled_chain [block_of_layer_1; block_of_layer_2] /\
  block_in_bounds block_of_layer_1.
Proof.
  assert (Hc : sampled_chain [block_of_layer_1; block_of_layer_2]).
  { left. exists (FullNeighborBlockSampler.init example_graph 2), [4; 6].
    exists rs0, rs0. vm_compute. reflexivity. }
  split; [exact Hc |].
  apply (sampled_blocks_in_bounds [block_of_layer_1; block_of_layer_2]
                                  block_of_layer_1 Hc).
  left. reflexivity.
Defined.

(** For every block of a full-neighbor chain, the edge connections that
    [print_block_info] shows are exactly the edges of the graph that go
    into the block's output nodes, grouped by output node and in edge
    order within each group. *)
Theorem full_block_edges_exact self seeds r chain r' b :
  FullNeighborBlockSampler.sample self seeds r = inr (chain, r') ->
  In b chain ->
  global_edges b =
  in_edges (FullNeighborBlockSampler.g self) (dst_global_ids b).
Proof.
  intros H Hb. destruct (full_block_shape _ _ _ _ _ _ H Hb) as (sj & -> & _).
  rewrite to_block_dst. apply global_edges_to_block.
  apply Forall_forall. intros e He. apply in_edges_dst in He.
  apply (proj1 (dedup_In _ _)), He.
Qed.

Lemma full_block_edges_exact_witness :
  exists chain b r',
    FullNeighborBlockSampler.sample
      (FullNeighborBlockSampler.init example_graph 2) [4; 6] rs0 =
      inr (chain, r') /\
    nth_error chain 0 = Some b /\
    global_edges b = in_edges example_graph (dst_global_ids b).
Proof.
  destruct (FullNeighborBlockSampler.sample
              (FullNeighborBlockSampler.init example_graph 2) [4; 6] rs0)
    as [e | [chain r']] eqn:H; [vm_compute in H; discriminate |].
  destruct (nth_error chain 0) as [b |] eqn:Hb.
  2:{ vm_compute in H. inversion H; subst. discriminate. }
  exists chain, b, r'. split; [reflexivity |]. split; [exact Hb |].
  apply (full_block_edges_exact _ _ _ _ _ b H).
  eapply nth_error_In, Hb.
Defined.

(** For every block of a neighbor-sampler chain, every edge connection
    that [print_block_info] shows is an edge of the original graph and
    goes into one of the block's output nodes, from one of its input
    nodes. *)
Theorem neighbor_block_edges_sound self seeds r chain r' b e :
  NeighborSampler.sample self seeds r = inr (chain, r') ->
  In b chain ->
  In e (global_edges b) ->
  In e (all_edges (NeighborSampler.g self)) /\
  In (fst e) (src_global_ids b) /\
  In (snd e) (dst_global_ids b).
Proof.
  intros H Hb He.
  destruct (neighbor_block_shape _ _ _ _ _ _ H Hb) as (sg & sj & -> & Hd & Hg).
  rewrite global_edges_to_block in He.
  2:{ eapply Forall_impl; [| exact Hd]. intros x Hx.
      apply (proj1 (dedup_In _ _)), Hx. }
  rewrite Forall_forall in Hd, Hg. split; [apply Hg, He |]. split.
  - apply to_block_src_In. right. apply in_map, He.
  - rewrite to_block_dst. apply Hd, He.
Qed.

Lemma neighbor_block_edges_sound_witness :
  exists chain b r' e,
    NeighborSampler.sample (NeighborSampler.mk example_graph [2%Z; 2%Z])
                           [4; 6] rs0 = inr (chain, r') /\
    nth_error chain 1 = Some b /\
    nth_error (global_edges b) 0 = Some e /\
    In e (all_edges example_graph).
Proof.
  destruct (NeighborSampler.sample (NeighborSampler.mk example_graph [2%Z; 2%Z])
                                   [4; 6] rs0) as [x | [chain r']] eqn:H;
    [vm_compute in H; discriminate |].
  destruct (nth_error chain 1) as [b |] eqn:Hb.
  2:{ vm_compute in H. inversion H; subst. discriminate. }
  destruct (nth_error (global_edges b) 0) as [e |] eqn:He.
  2:{ vm_compute in H. inversion H; subst. vm_compute in Hb.
      inversion Hb; subst. discriminate. }
  exists chain, b, r', e.
  split; [reflexivity |]. split; [exact Hb |]. split; [exact He |].
  apply (neighbor_block_edges_sound _ _ _ _ _ b e H).
  - eapply nth_error_In, Hb.
  - eapply nth_error_In, He.
Defined.

(** ** The shape of a chain *)

Lemma grow_keeps_prefix g sels s bs r s' bs' r' :
  grow g sels (s, bs) r = inr ((s', bs'), r') ->
  sels <> [] ->
  NoDup s' /\ exists extra, s' = dedup s ++ extra.
Proof.
  revert s bs r. induction sels as [| sel rest IH]; intros s bs r H Hne;
    [congruence |].
  cbn [grow] in H. apply bind_inr in H. destruct H as (sg & r1 & _ & H).
  cbn [fst snd] in H.
  pose proof (to_block_src_NoDup sg s) as Hnd.
  destruct (to_block_src_extends sg s) as [e1 E1].
  destruct rest as [| sel' rest'].
  - simpl in H. apply ret_inr in H. destruct H as [H _]. inversion H; subst.
    split; [exact Hnd | exists e1; exact E1].
  - apply IH in H; [| discriminate]. destruct H as [Hnd' [e2 E2]].
    split; [exact Hnd' |]. rewrite (dedup_fixed _ Hnd), E1 in E2.
    exists (e1 ++ e2). rewrite E2, app_assoc. reflexivity.
Qed.

Lemma grow_chain_ends g sels seeds r s' chain r' :
  grow g sels (seeds, []) r = inr ((s', chain), r') ->
  sels <> [] ->
  length chain = length sels /\
  exists first_block last_block extra,
    nth_error chain 0 = Some first_block /\
    nth_error chain (length chain - 1) = Some last_block /\
    dst_global_ids last_block = dedup seeds /\
    src_global_ids first_block = dedup seeds ++ extra.
Proof.
  intros H Hne.
  pose proof (grow_blocks _ _ _ _ _ _ H) as (new & Enew & Hlen).
  simpl in Enew. rewrite app_nil_r in Enew. subst new.
  split; [exact Hlen |].
  assert (Hpos : 0 < length sels) by (destruct sels; [congruence | simpl; lia]).
  destruct (grow_keeps_prefix _ _ _ _ _ _ _ _ H Hne) as [_ [extra Ex]].
  pose proof (grow_front _ _ _ _ _ _ _ H) as Hf.
  destruct chain as [| b0 rest]; [simpl in Hlen; lia |].
  destruct (nth_error (b0 :: rest) (length (b0 :: rest) - 1)) as [bl |] eqn:El.
  2:{ apply nth_error_None in El. simpl in El. lia. }
  exists b0, bl, extra. split; [reflexivity |]. split; [reflexivity |].
  split; [| rewrite <- Hf; exact Ex].
  destruct (grow_chain_nth _ _ _ _ _ _ _ _ _ H El)
    as (sel & sj & rj & sg & rj' & _ & _ & Hpre & _ & ->).
  replace (length sels - 1 - (length (b0 :: rest) - 1)) with 0 in Hpre by lia.
  simpl in Hpre. apply ret_inr in Hpre. destruct Hpre as [Hpre _].
  inversion Hpre; subst. apply to_block_dst.
Qed.

(** What the training loop reads off a chain.  For both samplers and
    seeds none of which is given twice, a returned chain has one block per
    layer; the output ids of its last block ([blocks[-1].dstdata[dgl.NID]])
    are the seeds, in the order given, and the input ids of its first
    block ([blocks[0].srcdata[dgl.NID]]) begin with exactly these ids. *)
Theorem chain_ends :
  (forall self seeds r chain r',
      FullNeighborBlockSampler.sample self seeds r = inr (chain, r') ->
      0 < FullNeighborBlockSampler.num_layers self ->
      NoDup seeds ->
      length chain = FullNeighborBlockSampler.num_layers self /\
      exists first_block last_block extra,
        nth_error chain 0 = Some first_block /\
        nth_error chain (length chain - 1) = Some last_block /\
        dst_global_ids last_block = seeds /\
        src_global_ids first_block = seeds ++ extra) /\
  (forall self seeds r chain r',
      NeighborSampler.sample self seeds r = inr (chain, r') ->
      NeighborSampler.num_fanouts self <> [] ->
      NoDup seeds ->
      length chain = length (NeighborSampler.num_fanouts self) /\
      exists first_block last_block extra,
        nth_error chain 0 = Some first_block /\
        nth_error chain (length chain - 1) = Some last_block /\
        dst_global_ids last_block = seeds /\
        src_global_ids first_block = seeds ++ extra).
Proof.
  split; intros self seeds r chain r' H Hne Hnd.
  - unfold FullNeighborBlockSampler.sample in H.
    apply bind_inr in H. destruct H as ([s' c] & r1 & H & Hr).
    apply ret_inr in Hr. simpl in Hr. destruct Hr as [-> ->].
    rewrite Full_iterate_grow in H.
    assert (Hs : repeat Full (FullNeighborBlockSampler.num_layers self) <> []).
    { destruct (FullNeighborBlockSampler.num_layers self); [lia | discriminate]. }
    destruct (grow_chain_ends _ _ _ _ _ _ _ H Hs) as [Hlen Hex].
    rewrite repeat_length in Hlen. rewrite (dedup_fixed seeds Hnd) in Hex.
    split; assumption.
  - unfold NeighborSampler.sample in H.
    apply bind_inr in H. destruct H as ([s' c] & r1 & H & Hr).
    apply ret_inr in Hr. simpl in Hr. destruct Hr as [-> ->].
    rewrite Neighbor_iterate_grow in H.
    assert (Hs : map FixedFanout (rev (NeighborSampler.num_fanouts self)) <> []).
    { intros E. apply map_eq_nil in E.
      apply (f_equal (@rev Z)) in E. rewrite rev_involutive in E.
      simpl in E. contradiction. }
    destruct (grow_chain_ends _ _ _ _ _ _ _ H Hs) as [Hlen Hex].
    rewrite length_map, length_rev in Hlen.
    rewrite (dedup_fixed seeds Hnd) in Hex.
    split; assumption.
Qed.

Lemma chain_ends_witness :
  exists chain first_block last_block extra r',
    NeighborSampler.sample (NeighborSampler.mk example_graph [2%Z; 2%Z])
                           [6; 4] rs0 = inr (chain, r') /\
    length chain = 2 /\
    nth_error chain 0 = Some first_block /\
    nth_error chain (length chain - 1) = Some last_block /\
    dst_global_ids last_block = [6; 4] /\
    src_global_ids first_block = [6; 4] ++ extra.
Proof.
  destruct (NeighborSampler.sample (NeighborSampler.mk example_graph [2%Z; 2%Z])
                                   [6; 4] rs0) as [x | [chain r']] eqn:H;
    [vm_compute in H; discriminate |].
  assert (Hne : NeighborSampler.num_fanouts
                  (NeighborSampler.mk example_graph [2%Z; 2%Z]) <> [])
    by discriminate.
  assert (Hnd : NoDup [6; 4]).
  { repeat constructor; simpl; intuition discriminate. }
  destruct (proj2 chain_ends (NeighborSampler.mk example_graph [2%Z; 2%Z])
                  [6; 4] rs0 chain r' H Hne Hnd)
    as (Hlen & b0 & bl & extra & H0 & Hl & Hd & Hs).
  exists chain, b0, bl, extra, r'. split; [reflexivity |].
  split; [exact Hlen |]. split; [exact H0 |]. split; [exact Hl |].
  split; [exact Hd | exact Hs].
Defined.

(** ** Neighbor sampling against full-neighbor sampling *)

Lemma gather_FixedFanout_all g k nodes r :
  (forall v, v < number_of_nodes g -> (Z.of_nat (in_degree g v) <= k)%Z) ->
  gather g (FixedFanout k) nodes r = gather g Full nodes r.
Proof.
  intros Hk. revert r. induction nodes as [| v vs IH]; intros r.
  - reflexivity.
  - cbn [gather]. unfold neighbors_of.
    destruct (v <? number_of_nodes g) eqn:Ev; [| reflexivity].
    apply Nat.ltb_lt in Ev. unfold lift, bind, ret. cbv beta iota.
    assert (E : FixedFanout k v (incident_edges g v) r =
                inr (incident_edges g v, r)).
    { unfold FixedFanout. rewrite incident_length.
      specialize (Hk v Ev). apply Z.leb_le in Hk. rewrite Hk. reflexivity. }
    rewrite E. unfold Full, ret. rewrite IH. reflexivity.
Qed.

Lemma in_edges_In g nodes e :
  In e (all_edges g) -> In (snd e) nodes -> In e (in_edges g nodes).
Proof.
  intros He Hv. unfold in_edges. apply in_flat_map. exists (snd e).
  split; [exact Hv |]. apply filter_In. split; [exact He |].
  apply Nat.eqb_refl.
Qed.

Lemma grow_within g sels s1 bs1 r1 s1' bs1' r1' s2 bs2 r2 s2' bs2' r2' :
  Forall good_selector sels ->
  grow g sels (s1, bs1) r1 = inr ((s1', bs1'), r1') ->
  grow g (repeat Full (length sels)) (s2, bs2) r2 = inr ((s2', bs2'), r2') ->
  incl s1 s2 ->
  Forall2 block_within bs1 bs2 ->
  Forall2 block_within bs1' bs2'.
Proof.
  intros Hsels. revert s1 bs1 r1 s2 bs2 r2.
  induction Hsels as [| sel rest Hsel _ IH];
    intros s1 bs1 r1 s2 bs2 r2 H1 H2 Hs Hbs.
  - simpl in H1, H2. apply ret_inr in H1. apply ret_inr in H2.
    destruct H1 as [H1 _]. destruct H2 as [H2 _].
    inversion H1; inversion H2; subst. exact Hbs.
  - cbn [length repeat grow] in H1, H2.
    apply bind_inr in H1. destruct H1 as (sg1 & q1 & Hg1 & H1).
    apply bind_inr in H2. destruct H2 as (sg2 & q2 & Hg2 & H2).
    cbn [fst snd] in *.
    rewrite gather_Full_eq in Hg2.
    destruct (forallb _ (dedup s2)); [| discriminate].
    inversion Hg2; subst sg2 q2. clear Hg2.
    pose proof (gather_sound _ _ _ _ _ _ Hsel Hg1) as Hin.
    pose proof (gather_dst_in _ _ _ _ _ _ Hg1) as Hd.
    rewrite Forall_forall in Hin, Hd.
    assert (Hsub : incl sg1 (in_edges g (dedup s2))).
    { intros e He. apply in_edges_In; [apply Hin, He |].
      apply dedup_In, Hs. apply (proj1 (dedup_In _ _)). apply Hd, He. }
    apply (IH _ _ _ _ _ _ H1 H2).
    + intros x Hx. apply to_block_src_In in Hx. apply to_block_src_In.
      destruct Hx as [Hx | Hx]; [left; apply Hs, Hx | right].
      apply in_map_iff in Hx. destruct Hx as (e & <- & He).
      apply in_map, Hsub, He.
    + constructor; [| exact Hbs]. split; [| split].
      * intros x Hx. apply to_block_src_In in Hx. apply to_block_src_In.
        destruct Hx as [Hx | Hx]; [left; apply Hs, Hx | right].
        apply in_map_iff in Hx. destruct Hx as (e & <- & He).
        apply in_map, Hsub, He.
      * rewrite !to_block_dst. intros x Hx.
        apply dedup_In, Hs. apply (proj1 (dedup_In _ _)), Hx.
      * rewrite !global_edges_to_block; [exact Hsub | |].
        -- apply Forall_forall. intros e He. apply in_edges_dst in He.
           apply (proj1 (dedup_In _ _)), He.
        -- apply Forall_forall. intros e He.
           apply (proj1 (dedup_In _ _)). apply Hd, He.
Qed.

(** Neighbor sampling never asks for more than full-neighbor sampling.
    For the same graph and seeds, whatever the random source, every block
    of a neighbor-sampler chain lies within the block of the same layer of
    the full-neighbor chain: its input ids, its output ids and its edges
    (as shown by [print_block_info]) are among those of the full block. *)
Theorem neighbor_chain_within_full g num_fanouts seeds r1 r2 cn cf r1' r2' :
  NeighborSampler.sample (NeighborSampler.mk g num_fanouts) seeds r1 =
    inr (cn, r1') ->
  FullNeighborBlockSampler.sample
    (FullNeighborBlockSampler.init g (length num_fanouts)) seeds r2 =
    inr (cf, r2') ->
  Forall2 block_within cn cf.
Proof.
  intros H1 H2.
  unfold NeighborSampler.sample in H1.
  apply bind_inr in H1. destruct H1 as ([s1 c1] & q1 & H1 & Hr1).
  apply ret_inr in Hr1. simpl in Hr1. destruct Hr1 as [-> ->].
  unfold FullNeighborBlockSampler.sample in H2.
  apply bind_inr in H2. destruct H2 as ([s2 c2] & q2 & H2 & Hr2).
  apply ret_inr in Hr2. simpl in Hr2. destruct Hr2 as [-> ->].
  rewrite Neighbor_iterate_grow in H1. rewrite Full_iterate_grow in H2.
  cbn [NeighborSampler.g NeighborSampler.num_fanouts
       FullNeighborBlockSampler.g FullNeighborBlockSampler.num_layers] in *.
  assert (Hs : Forall good_selector (map FixedFanout (rev num_fanouts))).
  { apply Forall_forall. intros sel Hin. apply in_map_iff in Hin.
    destruct Hin as (k & <- & _). apply FixedFanout_good. }
  rewrite <- (length_rev num_fanouts) in H2.
  rewrite <- (length_map FixedFanout (rev num_fanouts)) in H2.
  apply (grow_within _ _ _ _ _ _ _ _ _ _ _ _ _ _ Hs H1 H2).
  - apply incl_refl.
  - constructor.
Qed.

Lemma neighbor_chain_within_full_witness :
  exists cn cf r1' r2',
    NeighborSampler.sample (NeighborSampler.mk example_graph [2%Z; 2%Z])
                           [4; 6] rs0 = inr (cn, r1') /\
    FullNeighborBlockSampler.sample
      (FullNeighborBlockSampler.init example_graph 2) [4; 6] rs0 =
      inr (cf, r2') /\
    Forall2 block_within cn cf.
Proof.
  destruct (NeighborSampler.sample (NeighborSampler.mk example_graph [2%Z; 2%Z])
                                   [4; 6] rs0) as [x | [cn r1']] eqn:H1;
    [vm_compute in H1; discriminate |].
  destruct (FullNeighborBlockSampler.sample
              (FullNeighborBlockSampler.init example_graph 2) [4; 6] rs0)
    as [x | [cf r2']] eqn:H2; [vm_compute in H2; discriminate |].
  exists cn, cf, r1', r2'. split; [reflexivity |]. split; [reflexivity |].
  apply (neighbor_chain_within_full example_graph [2%Z; 2%Z] [4; 6]
           rs0 rs0 cn cf r1' r2' H1 H2).
Defined.

Lemma grow_covers g fanouts s1 bs1 r1 s1' bs1' r1' s2 bs2 r2 s2' bs2' r2' :
  (forall k, In k fanouts ->
             forall v, v < number_of_nodes g ->
                       (Z.of_nat (in_degree g v) <= k)%Z) ->
  grow g (repeat Full (length fanouts)) (s1, bs1) r1 =
    inr ((s1', bs1'), r1') ->
  grow g (map FixedFanout fanouts) (s2, bs2) r2 = inr ((s2', bs2'), r2') ->
  incl s1 s2 ->
  Forall2 block_within bs1 bs2 ->
  Forall2 block_within bs1' bs2'.
Proof.
  revert s1 bs1 r1 s2 bs2 r2.
  induction fanouts as [| k rest IH];
    intros s1 bs1 r1 s2 bs2 r2 Hk H1 H2 Hs Hbs.
  - simpl in H1, H2. apply ret_inr in H1. apply ret_inr in H2.
    destruct H1 as [H1 _]. destruct H2 as [H2 _].
    inversion H1; inversion H2; subst. exact Hbs.
  - cbn [length repeat map grow] in H1, H2.
    apply bind_inr in H1. destruct H1 as (sg1 & q1 & Hg1 & H1).
    apply bind_inr in H2. destruct H2 as (sg2 & q2 & Hg2 & H2).
    cbn [fst snd] in *.
    rewrite gather_Full_eq in Hg1.
    destruct (forallb _ (dedup s1)); [| discriminate].
    inversion Hg1; subst sg1 q1. clear Hg1.
    rewrite (gather_FixedFanout_all g k _ r2 (Hk k (or_introl eq_refl)))
      in Hg2.
    rewrite gather_Full_eq in Hg2.
    destruct (forallb _ (dedup s2)); [| discriminate].
    inversion Hg2; subst sg2 q2. clear Hg2.
    assert (Hsub : incl (in_edges g (dedup s1)) (in_edges g (dedup s2))).
    { intros e He. apply in_edges_In; [apply (in_edges_subset _ _ _ He) |].
      apply dedup_In, Hs. apply (proj1 (dedup_In _ _)).
      apply (in_edges_dst _ _ _ He). }
    assert (Hsrc : incl (src_global_ids (to_block (in_edges g (dedup s1)) s1))
                        (src_global_ids (to_block (in_edges g (dedup s2)) s2))).
    { intros x Hx. apply to_block_src_In in Hx. apply to_block_src_In.
      destruct Hx as [Hx | Hx]; [left; apply Hs, Hx | right].
      apply in_map_iff in Hx. destruct Hx as (e & <- & He).
      apply in_map, Hsub, He. }
    apply (IH _ _ _ _ _ _ (fun k' Hk' => Hk k' (or_intror Hk')) H1 H2 Hsrc).
    constructor; [| exact Hbs]. split; [exact Hsrc | split].
    + rewrite !to_block_dst. intros x Hx.
      apply dedup_In, Hs. apply (proj1 (dedup_In _ _)), Hx.
    + rewrite !global_edges_to_block; [exact Hsub | |].
      * apply Forall_forall. intros e He. apply in_edges_dst in He.
        apply (proj1 (dedup_In _ _)), He.
      * apply Forall_forall. intros e He. apply in_edges_dst in He.
        apply (proj1 (dedup_In _ _)), He.
Qed.

Lemma Forall2_both {A B} (P : A -> B -> Prop) (Q : B -> A -> Prop) l l' :
  Forall2 P l l' -> Forall2 Q l' l ->
  Forall2 (fun a b => P a b /\ Q b a) l l'.
Proof.
  intros HP. induction HP as [| a b l l' Hab _ IH]; intros HQ.
  - constructor.
  - inversion HQ; subst. constructor; [split; assumption | apply IH; assumption].
Qed.

(** When every fanout is at least the in-degree of every node, neighbor
    sampling selects what full-neighbor sampling selects: for the same
    graph and seeds, whatever the random source, the block of every layer
    of a neighbor-sampler chain and the block of the same layer of the
    full-neighbor chain have the same input ids, the same output ids and
    the same edges (as shown by [print_block_info]), each lying within
    the other. *)
Theorem large_fanouts_same_blocks g num_fanouts seeds r1 r2 cn cf r1' r2' :
  (forall k, In k num_fanouts ->
             forall v, v < number_of_nodes g ->
                       (Z.of_nat (in_degree g v) <= k)%Z) ->
  NeighborSampler.sample (NeighborSampler.mk g num_fanouts) seeds r1 =
    inr (cn, r1') ->
  FullNeighborBlockSampler.sample
    (FullNeighborBlockSampler.init g (length num_fanouts)) seeds r2 =
    inr (cf, r2') ->
  Forall2 (fun bn bf => block_within bn bf /\ block_within bf bn) cn cf.
Proof.
  intros Hk H1 H2.
  unfold NeighborSampler.sample in H1.
  apply bind_inr in H1. destruct H1 as ([s1 c1] & q1 & H1 & Hr1).
  apply ret_inr in Hr1. simpl in Hr1. destruct Hr1 as [-> ->].
  unfold FullNeighborBlockSampler.sample in H2.
  apply bind_inr in H2. destruct H2 as ([s2 c2] & q2 & H2 & Hr2).
  apply ret_inr in Hr2. simpl in Hr2. destruct Hr2 as [-> ->].
  rewrite Neighbor_iterate_grow in H1. rewrite Full_iterate_grow in H2.
  cbn [NeighborSampler.g NeighborSampler.num_fanouts
       FullNeighborBlockSampler.g FullNeighborBlockSampler.num_layers] in *.
  rewrite <- (length_rev num_fanouts) in H2.
  apply Forall2_both.
  - assert (Hs : Forall good_selector (map FixedFanout (rev num_fanouts))).
    { apply Forall_forall. intros sel Hin. apply in_map_iff in Hin.
      destruct Hin as (k & <- & _). apply FixedFanout_good. }
    rewrite <- (length_map FixedFanout (rev num_fanouts)) in H2.
    apply (grow_within _ _ _ _ _ _ _ _ _ _ _ _ _ _ Hs H1 H2).
    + apply incl_refl.
    + constructor.
  - apply (grow_covers g (rev num_fanouts) _ _ _ _ _ _ _ _ _ _ _ _
                       (fun k Hin => Hk k (proj2 (in_rev _ _) Hin)) H2 H1).
    + apply incl_refl.
    + constructor.
Qed.

Lemma large_fanouts_same_blocks_witness :
  (forall k, In k [7%Z; 9%Z] ->
             forall v, v < number_of_nodes example_graph ->
                       (Z.of_nat (in_degree example_graph v) <= k)%Z) /\
  exists cn cf r1' r2',
    NeighborSampler.sample (NeighborSampler.mk example_graph [7%Z; 9%Z])
                           [4; 6] rs0 = inr (cn, r1') /\
    FullNeighborBlockSampler.sample
      (FullNeighborBlockSampler.init example_graph 2) [4; 6] rs0 =
      inr (cf, r2') /\
    Forall2 (fun bn bf => block_within bn bf /\ block_within bf bn) cn cf.
Proof.
  assert (Hk : forall k, In k [7%Z; 9%Z] ->
                         forall v, v < number_of_nodes example_graph ->
                                   (Z.of_nat (in_degree example_graph v) <= k)%Z).
  { intros k Hin v Hv. change (number_of_nodes example_graph) with 12 in Hv.
    assert (Hd : in_degree example_graph v <= 7).
    { do 12 (destruct v as [| v]; [vm_compute; lia |]). lia. }
    destruct Hin as [<- | [<- | []]]; lia. }
  split; [exact Hk |].
  destruct (NeighborSampler.sample (NeighborSampler.mk example_graph [7%Z; 9%Z])
                                   [4; 6] rs0) as [x | [cn r1']] eqn:H1;
    [vm_compute in H1; discriminate |].
  destruct (FullNeighborBlockSampler.sample
              (FullNeighborBlockSampler.init example_graph 2) [4; 6] rs0)
    as [x | [cf r2']] eqn:H2; [vm_compute in H2; discriminate |].
  exists cn, cf, r1', r2'. split; [reflexivity |]. split; [reflexivity |].
  exact (large_fanouts_same_blocks example_graph [7%Z; 9%Z] [4; 6]
           rs0 rs0 cn cf r1' r2' Hk H1 H2).
Defined.

(** ** The forward pass over [zip(self.convs, blocks)] *)

Lemma combine_firstn_min {A B} (l : list A) (l' : list B) :
  combine l l' =
  combine (firstn (Nat.min (length l) (length l')) l)
          (firstn (Nat.min (length l) (length l')) l').
Proof.
  revert l'. induction l as [| a t IH]; intros [| b t']; simpl;
    try reflexivity.
  f_equal. apply IH.
Qed.

(** [SAGENet.forward] pairs layers and blocks with [zip]: when their
    numbers differ nothing is raised, the surplus layers or the surplus
    blocks are ignored, and the result is that of the first
    [min(len(convs), len(blocks))] layers on the first as many blocks. *)
Theorem forward_ignores_surplus (T : Type) (mean : list T -> T)
        (convs : list (Layer T)) (blocks : list Block) (x : list T) r :
  SAGENet.forward mean (SAGENet.mk convs) blocks x r =
  SAGENet.forward mean
    (SAGENet.mk (firstn (Nat.min (length convs) (length blocks)) convs))
    (firstn (Nat.min (length convs) (length blocks)) blocks) x r.
Proof.
  unfold SAGENet.forward. cbn [SAGENet.convs].
  rewrite <- combine_firstn_min. reflexivity.
Qed.

(** ** The batches of layer-wise inference *)

Lemma range_step_bound stop step s :
  0 < step -> In s (range_step stop step) -> s < stop.
Proof.
  intros Hb Hin. unfold range_step in Hin. apply in_map_iff in Hin.
  destruct Hin as (i & <- & Hi). apply in_seq in Hi.
  pose proof (Nat.div_mod_eq (stop + step - 1) step) as E.
  pose proof (Nat.mod_upper_bound (stop + step - 1) step) as U.
  nia.
Qed.

(** The batches [node_ids[batch_start:batch_start+batch_size]] that
    [inference_with_sagenet] samples, for a positive batch size: put end
    to end they are the node ids [0 .. N-1], each once and in order;
    there are [ceil(N / batch_size)] of them; none is empty and none has
    more than [batch_size] nodes; every batch but the last is full. *)
Theorem inference_batches_cover N batch_size :
  0 < batch_size ->
  concat (inference_node_batches N batch_size) = seq 0 N /\
  length (inference_node_batches N batch_size) =
    (N + batch_size - 1) / batch_size /\
  Forall (fun batch => 0 < length batch <= batch_size)
         (inference_node_batches N batch_size) /\
  (forall i batch,
      S i < length (inference_node_batches N batch_size) ->
      nth_error (inference_node_batches N batch_size) i = Some batch ->
      length batch = batch_size).
Proof.
  intros Hb. unfold inference_node_batches. split; [| split; [| split]].
  - pose proof (batches_partition (seq 0 N) batch_size Hb) as P.
    rewrite length_seq in P. exact P.
  - unfold range_step. rewrite !length_map, length_seq. reflexivity.
  - apply Forall_forall. intros batch Hin. apply in_map_iff in Hin.
    destruct Hin as (s & <- & Hs).
    apply (range_step_bound _ _ _ Hb) in Hs.
    rewrite length_firstn, length_skipn, length_seq. lia.
  - intros i batch Hi Hn. rewrite length_map in Hi.
    unfold range_step in *. rewrite length_map, length_seq in Hi.
    rewrite nth_error_map, nth_error_map in Hn.
    rewrite nth_error_seq in Hn.
    destruct (i <? (N + batch_size - 1) / batch_size) eqn:Ei.
    2:{ apply Nat.ltb_ge in Ei. lia. }
    simpl in Hn. inversion Hn; subst batch.
    rewrite length_firstn, length_skipn, length_seq.
    pose proof (Nat.div_mod_eq (N + batch_size - 1) batch_size) as E.
    pose proof (Nat.mod_upper_bound (N + batch_size - 1) batch_size) as U.
    nia.
Qed.

Lemma inference_batches_cover_witness :
  0 < 5 /\
  concat (inference_node_batches 12 5) = seq 0 12 /\
  length (inference_node_batches 12 5) = 3.
Proof.
  split; [lia |].
  destruct (inference_batches_cover 12 5) as (Hc & Hl & _); [lia |].
  split; [exact Hc | exact Hl].
Defined.

(** ** The layers built by the constructors *)

Section ConstructorProofs.

Variables Agg Drop Act : Type.

Lemma sizes_fit_app (a b c : nat)
      (l1 l2 : list (Constructors.SAGEConvArgs Agg Drop Act)) :
  Constructors.sizes_fit a b l1 ->
  Constructors.sizes_fit b c l2 ->
  Constructors.sizes_fit a c (l1 ++ l2).
Proof.
  revert a. induction l1 as [| x t IH]; intros a H1 H2; simpl in *.
  - subst. exact H2.
  - destruct H1 as [Hx Ht]. split; [exact Hx | apply IH; assumption].
Qed.

Lemma sizes_fit_repeat (h : nat) (agg : Agg) (drop : option Drop)
      (act : option Act) n :
  Constructors.sizes_fit h h
    (repeat (Constructors.mkArgs h h agg drop act) n).
Proof.
  induction n as [| n IH]; simpl; [reflexivity |].
  split; [reflexivity | exact IH].
Qed.

(** [GraphSAGEModel.__init__] builds [n_layers + 1] layers when
    [n_layers >= 1] (and two layers otherwise).  Their sizes fit from
    [in_feats] to [out_dim]; every layer but the last carries the given
    activation and the last one none. *)
Theorem GraphSAGEModel_init_shape (in_feats n_hidden out_dim : nat)
        (n_layers : Z) (activation : Act) (dropout : Drop)
        (aggregator_type : Agg) :
  ((1 <= n_layers)%Z ->
   Z.of_nat (length (Constructors.GraphSAGEModel_init in_feats n_hidden out_dim
      n_layers activation dropout aggregator_type)) = (n_layers + 1)%Z) /\
  ((n_layers <= 1)%Z ->
   length (Constructors.GraphSAGEModel_init in_feats n_hidden out_dim
      n_layers activation dropout aggregator_type) = 2) /\
  Constructors.sizes_fit in_feats out_dim
    (Constructors.GraphSAGEModel_init in_feats n_hidden out_dim
      n_layers activation dropout aggregator_type) /\
  exists front last,
    Constructors.GraphSAGEModel_init in_feats n_hidden out_dim
      n_layers activation dropout aggregator_type = front ++ [last] /\
    Constructors.conv_activation last = None /\
    Forall (fun args => Constructors.conv_activation args = Some activation)
           front.
Proof.
  unfold Constructors.GraphSAGEModel_init.
  split; [| split; [| split]].
  - intros Hn. rewrite !length_app, repeat_length. simpl. lia.
  - intros Hn. rewrite !length_app, repeat_length. simpl. lia.
  - apply (sizes_fit_app _ n_hidden); [simpl; auto |].
    apply (sizes_fit_app _ n_hidden); [apply sizes_fit_repeat | simpl; auto].
  - eexists (_ :: repeat _ _), _. split; [| split].
    + rewrite app_assoc. reflexivity.
    + reflexivity.
    + constructor; [reflexivity |]. apply Forall_forall.
      intros args Hin. apply repeat_spec in Hin. subst args. reflexivity.
Qed.

(** [SAGENet.__init__] builds exactly [n_layers] layers when
    [n_layers >= 1], but two layers when [n_layers <= 0].  Their sizes
    fit from [in_feats] to [out_feats]; every layer but the last has
    [F.relu] and the last one no activation. *)
Theorem SAGENet_init_shape (mean_type : Agg) (F_relu : Act) (n_layers : Z)
        (in_feats out_feats : nat) (hidden_feats : option nat) :
  ((1 <= n_layers)%Z ->
   Z.of_nat (length (Constructors.SAGENet_init Drop mean_type F_relu n_layers in_feats
      out_feats hidden_feats)) = n_layers) /\
  ((n_layers <= 0)%Z ->
   length (Constructors.SAGENet_init Drop mean_type F_relu n_layers in_feats
      out_feats hidden_feats) = 2) /\
  Constructors.sizes_fit in_feats out_feats
    (Constructors.SAGENet_init Drop mean_type F_relu n_layers in_feats
      out_feats hidden_feats) /\
  exists front last,
    Constructors.SAGENet_init Drop mean_type F_relu n_layers in_feats
      out_feats hidden_feats = front ++ [last] /\
    Constructors.conv_activation last = None /\
    Forall (fun args => Constructors.conv_activation args = Some F_relu)
           front.
Proof.
  unfold Constructors.SAGENet_init.
  set (hidden := match hidden_feats with None => out_feats | Some n => n end).
  destruct (n_layers =? 1)%Z eqn:E.
  - apply Z.eqb_eq in E. subst n_layers. split; [| split; [| split]].
    + intros _. reflexivity.
    + intros Hn. lia.
    + simpl. auto.
    + exists [], (Constructors.mkArgs in_feats out_feats mean_type None None).
      split; [reflexivity |]. split; [reflexivity | constructor].
  - apply Z.eqb_neq in E. split; [| split; [| split]].
    + intros Hn. rewrite !length_app, repeat_length. simpl. lia.
    + intros Hn. rewrite !length_app, repeat_length. simpl. lia.
    + apply (sizes_fit_app _ hidden); [simpl; auto |].
      apply (sizes_fit_app _ hidden); [apply sizes_fit_repeat | simpl; auto].
    + eexists (_ :: repeat _ _), _. split; [| split].
      * rewrite app_assoc. reflexivity.
      * reflexivity.
      * constructor; [reflexivity |]. apply Forall_forall.
        intros args Hin. apply repeat_spec in Hin. subst args. reflexivity.
Qed.

End ConstructorProofs.

Lemma GraphSAGEModel_init_shape_witness :
  (1 <= 3)%Z /\
  Z.of_nat (length (Constructors.GraphSAGEModel_init 5 10 6 3 tt tt tt)) = 4%Z.
Proof.
  split; [lia |].
  apply (proj1 (GraphSAGEModel_init_shape unit unit unit 5 10 6 3 tt tt tt)).
  lia.
Defined.

Lemma SAGENet_init_shape_witness :
  (0 <= 0)%Z /\
  length (Constructors.SAGENet_init unit tt tt 0 5 6 None) = 2.
Proof.
  split; [lia |].
  apply (proj1 (proj2 (SAGENet_init_shape unit unit unit tt tt 0 5 6 None))).
  lia.
Defined.

(** ** Running a model on a sampled chain *)

Lemma mapM_total {A B} (f : A -> M B) l r :
  (forall a, In a l -> exists b, f a r = inr (b, r)) ->
  exists bs, mapM f l r = inr (bs, r) /\ length bs = length l.
Proof.
  induction l as [| a t IH]; intros H.
  - exists []. split; reflexivity.
  - destruct (H a (or_introl eq_refl)) as [b Hb].
    destruct IH as (bs & Hbs & Hlen).
    { intros x Hx. apply H. right. exact Hx. }
    exists (b :: bs). split; [| simpl; rewrite Hlen; reflexivity].
    simpl. unfold bind. rewrite Hb, Hbs. reflexivity.
Qed.

Lemma forward_row_total (T : Type) (mean : list T -> T) (layer : Layer T)
      (g : Block) (x_src x_dst : list T) r j :
  block_in_bounds g ->
  length x_src = number_of_src_nodes g ->
  j < length x_dst ->
  exists y, block_node_update mean layer g x_src x_dst j r = inr (y, r).
Proof.
  intros [_ Hb] Hs Hj. unfold block_node_update.
  destruct (nth_error x_dst j) as [own |] eqn:E.
  2:{ apply nth_error_None in E. lia. }
  assert (Hin : Forall (fun i => i < length x_src)
                       (map fst (filter (fun e => snd e =? j) (block_edges g)))).
  { apply Forall_forall. intros i Hi. apply in_map_iff in Hi.
    destruct Hi as (e & <- & He). apply filter_In in He.
    rewrite Forall_forall in Hb. rewrite Hs. apply (Hb e), He. }
  destruct (index_rows_total x_src _ r Hin) as (messages & Hm & _).
  exists (layer own (mean messages)).
  unfold bind. simpl. rewrite Hm. reflexivity.
Qed.

(** [SAGEConvBipartite.forward] on a block that is in bounds, given one
    input row per input node and one output-side row per output node, does
    not fail, leaves the random source alone and returns one row per
    output node of the block. *)
Theorem forward_rows (T : Type) (mean : list T -> T) (layer : Layer T)
        (g : Block) (x_src x_dst : list T) r :
  block_in_bounds g ->
  length x_src = number_of_src_nodes g ->
  length x_dst = number_of_dst_nodes g ->
  exists y,
    SAGEConvBipartite.forward mean layer g (x_src, x_dst) r = inr (y, r) /\
    length y = number_of_dst_nodes g.
Proof.
  intros Hb Hs Hd. rewrite forward_as_rows by assumption.
  match goal with
  | |- exists y, mapM ?f ?l r = _ /\ _ =>
      destruct (mapM_total f l r) as (y & Hy & Hlen)
  end.
  - intros j Hj. apply in_seq in Hj.
    apply forward_row_total; [exact Hb | exact Hs | lia].
  - exists y. split; [exact Hy |]. rewrite Hlen. apply length_seq.
Qed.

Lemma forward_rows_witness :
  block_in_bounds block_of_layer_2 /\
  exists y,
    SAGEConvBipartite.forward (@concat nat) (fun own neigh => own ++ neigh)
      block_of_layer_2 ([[4]; [6]; [0]; [2]; [7]], [[4]; [6]]) rs0 =
      inr (y, rs0) /\
    length y = number_of_dst_nodes block_of_layer_2.
Proof.
  assert (Hb : block_in_bounds block_of_layer_2).
  { split; [vm_compute; lia |]. vm_compute. repeat constructor. }
  split; [exact Hb |].
  apply (forward_rows (list nat) (@concat nat) (fun own neigh => own ++ neigh)
                      block_of_layer_2 [[4]; [6]; [0]; [2]; [7]] [[4]; [6]]
                      rs0 Hb).
  - reflexivity.
  - reflexivity.
Defined.

Lemma propagate_rows (T : Type) (mean : list T -> T) (layer : Layer T)
      (b : Block) (h : list T) r :
  block_in_bounds b ->
  length h = number_of_src_nodes b ->
  exists y, SAGENet.propagate mean b h layer r = inr (y, r) /\
            length y = number_of_dst_nodes b.
Proof.
  intros Hb Hs. unfold SAGENet.propagate.
  assert (Hd : length (firstn (number_of_dst_nodes b) h) =
               number_of_dst_nodes b).
  { rewrite length_firstn. destruct Hb as [Hle _].
    unfold number_of_src_nodes in *. lia. }
  rewrite forward_as_rows by assumption.
  match goal with
  | |- exists y, mapM ?f ?l r = _ /\ _ =>
      destruct (mapM_total f l r) as (y & Hy & Hlen)
  end.
  - intros j Hj. apply in_seq in Hj.
    apply forward_row_total; [exact Hb | exact Hs | lia].
  - exists y. split; [exact Hy |]. rewrite Hlen. apply length_seq.
Qed.

Lemma forward_loop_rows (T : Type) (mean : list T -> T) chain :
  forall (convs : list (Layer T)) n (x : list T) r,
    linked n chain ->
    length convs = length chain ->
    length x = n ->
    exists out,
      SAGENet.forward_loop mean (combine convs chain) x r = inr (out, r) /\
      length out = rows_after n chain.
Proof.
  induction chain as [| b rest IH]; intros convs n x r Hl Hc Hx.
  - destruct convs; [| discriminate]. exists x. split; [reflexivity | exact Hx].
  - destruct convs as [| c convs]; [discriminate |].
    destruct Hl as (Hb & Hs & Hrest). simpl in Hc.
    destruct (propagate_rows T mean c b x r Hb) as (y & Hy & Hlen); [lia |].
    destruct (IH convs (number_of_dst_nodes b) y r Hrest) as (out & Ho & Hlo);
      [lia | exact Hlen |].
    exists out. split; [| exact Hlo].
    cbn [combine SAGENet.forward_loop]. unfold bind. rewrite Hy. exact Ho.
Qed.

Lemma rows_after_last chain :
  forall n bl,
    nth_error chain (length chain - 1) = Some bl ->
    rows_after n chain = number_of_dst_nodes bl.
Proof.
  induction chain as [| b t IH]; intros n bl H; [discriminate |].
  destruct t as [| b1 t'].
  - simpl in H. inversion H. reflexivity.
  - cbn [rows_after]. apply (IH 0).
    simpl in H |- *. rewrite Nat.sub_0_r in *. exact H.
Qed.

Lemma linked_of_adjacent chain :
  Forall block_in_bounds chain ->
  (forall k b b',
      nth_error chain k = Some b -> nth_error chain (S k) = Some b' ->
      number_of_dst_nodes b = number_of_src_nodes b') ->
  forall b0, nth_error chain 0 = Some b0 ->
             linked (number_of_src_nodes b0) chain.
Proof.
  induction chain as [| b t IH]; intros Hb Hadj b0 E; [discriminate |].
  simpl in E. inversion E; subst b0. clear E.
  inversion Hb as [| ? ? Hb0 Hbt]; subst.
  cbn [linked]. split; [exact Hb0 |]. split; [reflexivity |].
  destruct t as [| b1 t']; [exact I |].
  rewrite (Hadj 0 b b1 eq_refl eq_refl).
  apply (IH Hbt); [| reflexivity].
  intros k x x' Hk Hk'. apply (Hadj (S k)); assumption.
Qed.

Lemma grow_adjacent g sels seeds r s' chain r' k b b' :
  grow g sels (seeds, []) r = inr ((s', chain), r') ->
  nth_error chain k = Some b ->
  nth_error chain (S k) = Some b' ->
  dst_global_ids b = src_global_ids b'.
Proof.
  intros H Hk Hk'.
  destruct (grow_chain_nth _ _ _ _ _ _ _ _ _ H Hk')
    as (_ & sj' & _ & sg' & _ & _ & _ & _ & _ & E').
  destruct (grow_chain_nth _ _ _ _ _ _ _ _ _ H Hk)
    as (sel & sj & rj & sg & rj' & _ & _ & Hpre & _ & ->).
  destruct (nth_error_skipn _ _ _ Hk') as [t Et]. rewrite Et in Hpre.
  apply grow_front in Hpre. subst sj.
  rewrite to_block_dst. apply dedup_fixed. rewrite E'.
  apply to_block_src_NoDup.
Qed.

Lemma grow_in_bounds g sels seeds r s' chain r' :
  grow g sels (seeds, []) r = inr ((s', chain), r') ->
  Forall block_in_bounds chain.
Proof.
  intros H. apply Forall_forall. intros b Hb.
  apply In_nth_error in Hb. destruct Hb as [i Hi].
  destruct (grow_chain_nth _ _ _ _ _ _ _ _ _ H Hi)
    as (sel & sj & rj & sg & rj' & _ & _ & _ & Hg & ->).
  apply to_block_in_bounds. apply (gather_dst_in _ _ _ _ _ _ Hg).
Qed.

Lemma forward_on_grown_chain (T : Type) (mean : list T -> T)
      g sels seeds r0 s' chain r0' (convs : list (Layer T)) x r
      first_block last_block :
  grow g sels (seeds, []) r0 = inr ((s', chain), r0') ->
  length convs = length chain ->
  nth_error chain 0 = Some first_block ->
  nth_error chain (length chain - 1) = Some last_block ->
  length x = number_of_src_nodes first_block ->
  exists out,
    SAGENet.forward mean (SAGENet.mk convs) chain x r = inr (out, r) /\
    length out = number_of_dst_nodes last_block.
Proof.
  intros H Hc H0 Hl Hx.
  assert (Hlink : linked (number_of_src_nodes first_block) chain).
  { apply linked_of_adjacent; [apply (grow_in_bounds _ _ _ _ _ _ _ H) | |
                               exact H0].
    intros k b b' Hk Hk'. unfold number_of_dst_nodes, number_of_src_nodes.
    rewrite (grow_adjacent _ _ _ _ _ _ _ _ _ _ H Hk Hk'). reflexivity. }
  destruct (forward_loop_rows T mean chain convs _ x r Hlink Hc Hx)
    as (out & Ho & Hlen).
  exists out. split; [exact Ho |].
  rewrite Hlen. apply rows_after_last, Hl.
Qed.

(** A model with as many layers as the chain has blocks runs on every
    chain returned by a sampler: given one input row per input node of the
    first block, [SAGENet.forward] does not fail and returns one row per
    output node of the last block. *)
Theorem model_runs_on_sampled_chain (T : Type) (mean : list T -> T)
        (convs : list (Layer T)) chain x r first_block last_block :
  sampled_chain chain ->
  length convs = length chain ->
  nth_error chain 0 = Some first_block ->
  nth_error chain (length chain - 1) = Some last_block ->
  length x = number_of_src_nodes first_block ->
  exists out,
    SAGENet.forward mean (SAGENet.mk convs) chain x r = inr (out, r) /\
    length out = number_of_dst_nodes last_block.
Proof.
  intros Hs. apply sampled_chain_grow in Hs.
  destruct Hs as (g & sels & seeds & r0 & s' & r0' & H).
  apply (forward_on_grown_chain T mean _ _ _ _ _ _ _ _ _ _ _ _ H).
Qed.

Lemma model_runs_on_sampled_chain_witness :
  sampled_chain [block_of_layer_1; block_of_layer_2] /\
  exists out,
    SAGENet.forward (@concat nat)
      (SAGENet.mk [fun own neigh => own ++ neigh;
                   fun own neigh => own ++ 99 :: neigh])
      [block_of_layer_1; block_of_layer_2]
      (map (fun i => [i]) (src_global_ids block_of_layer_1)) rs0 =
      inr (out, rs0) /\
    length out = number_of_dst_nodes block_of_layer_2.
Proof.
  assert (Hc : sampled_chain [block_of_layer_1; block_of_layer_2]).
  { left. exists (FullNeighborBlockSampler.init example_graph 2), [4; 6].
    exists rs0, rs0. vm_compute. reflexivity. }
  split; [exact Hc |].
  apply (model_runs_on_sampled_chain (list nat) (@concat nat) _
           [block_of_layer_1; block_of_layer_2] _ rs0
           block_of_layer_1 block_of_layer_2 Hc); reflexivity.
Defined.

Lemma grow_in_range g sels st r st' r' :
  wf_graph g ->
  Forall good_selector sels ->
  Forall (fun v => v < number_of_nodes g) (fst st) ->
  grow g sels st r = inr (st', r') ->
  Forall (fun v => v < number_of_nodes g) (fst st').
Proof.
  intros Hwf Hsels. revert st r.
  induction Hsels as [| sel rest Hsel _ IH]; intros st r Hr H.
  - simpl in H. apply ret_inr in H. destruct H as [<- _]. exact Hr.
  - cbn [grow] in H. apply bind_inr in H. destruct H as (sg & r1 & Hg & H).
    apply (IH _ _) in H; [exact H |]. cbn [fst].
    pose proof (gather_sound _ _ _ _ _ _ Hsel Hg) as Hin.
    apply Forall_forall. intros x Hx. apply to_block_src_In in Hx.
    destruct Hx as [Hx | Hx].
    + rewrite Forall_forall in Hr. apply Hr, Hx.
    + apply in_map_iff in Hx. destruct Hx as (e & <- & He).
      rewrite Forall_forall in Hin. unfold wf_graph in Hwf.
      rewrite Forall_forall in Hwf. apply (Hwf e), Hin, He.
Qed.

(** One step of the training loop, up to the loss.  On a well-formed
    graph with one feature row and one label per node, for a neighbor
    sampler with at least one fanout and no negative fanout, a model with
    one layer per fanout and seeds that are node ids, none given twice,
    sampling and running the model do not fail; the predictions and the
    labels handed to the loss have the same number of rows, and the labels
    are those of the seeds, in the order of the seeds. *)
Theorem training_batch_aligned (T Label : Type) (mean : list T -> T)
        (convs : list (Layer T)) g num_fanouts
        (features : list T) (labels : list Label) seeds r :
  wf_graph g ->
  length features = number_of_nodes g ->
  length labels = number_of_nodes g ->
  Forall (fun v => v < number_of_nodes g) seeds ->
  NoDup seeds ->
  num_fanouts <> [] ->
  Forall (fun k => (0 <= k)%Z) num_fanouts ->
  length convs = length num_fanouts ->
  exists output_predictions output_labels r',
    (blocks <- NeighborSampler.sample (NeighborSampler.mk g num_fanouts) seeds ;;
     training_batch mean (SAGENet.mk convs) features labels blocks) r =
      inr ((output_predictions, output_labels), r') /\
    length output_predictions = length output_labels /\
    index_rows labels seeds r = inr (output_labels, r).
Proof.
  intros Hwf Hf Hl Hr Hnd Hne _ Hc.
  assert (Hs : Forall good_selector (map FixedFanout (rev num_fanouts))).
  { apply Forall_forall. intros sel Hin. apply in_map_iff in Hin.
    destruct Hin as (k & <- & _). apply FixedFanout_good. }
  destruct (grow_total g _ (seeds, []) r Hwf Hs Hr) as ([s' chain] & r' & H).
  assert (Hsn : map FixedFanout (rev num_fanouts) <> []).
  { intros E. apply map_eq_nil in E.
    apply (f_equal (@rev Z)) in E. rewrite rev_involutive in E.
    simpl in E. contradiction. }
  destruct (grow_chain_ends _ _ _ _ _ _ _ H Hsn)
    as (Hlen & b0 & bl & extra & H0 & Hlast & Hdst & Hsrc).
  rewrite length_map, length_rev in Hlen.
  pose proof (grow_in_range g _ (seeds, []) _ _ _ Hwf Hs Hr H) as Hrange.
  cbn [fst] in Hrange.
  pose proof (grow_front _ _ _ _ _ _ _ H) as Hfront.
  destruct chain as [| c0 crest]; [discriminate |].
  simpl in H0. inversion H0; subst c0. clear H0.
  subst s'.
  assert (Hin : Forall (fun i => i < length features) (src_global_ids b0))
    by (rewrite Hf; exact Hrange).
  destruct (index_rows_total features _ r' Hin) as (x & Hx & Hxlen).
  assert (Hlab : Forall (fun i => i < length labels) (dst_global_ids bl)).
  { rewrite Hdst, Hl. apply Forall_forall. intros v Hv.
    apply (proj1 (dedup_In _ _)) in Hv. rewrite Forall_forall in Hr.
    apply Hr, Hv. }
  destruct (index_rows_total labels _ r' Hlab) as (labs & Hlabs & Hlablen).
  destruct (forward_on_grown_chain T mean _ _ _ _ _ _ _ convs x r' b0 bl H)
    as (out & Ho & Holen); try assumption; try reflexivity.
  { rewrite Hc. symmetry. exact Hlen. }
  exists out, labs, r'. split; [| split].
  - unfold NeighborSampler.sample.
    rewrite bind_bind. unfold bind at 1.
    rewrite Neighbor_iterate_grow.
    cbn [NeighborSampler.g NeighborSampler.num_fanouts].
    rewrite H. unfold bind at 1, ret at 1. cbn [snd].
    unfold training_batch.
    unfold bind. cbn [nth_error lift_index]. unfold ret at 1.
    rewrite Hlast. cbn [lift_index]. unfold ret at 1.
    rewrite Hx, Hlabs, Ho. reflexivity.
  - rewrite Holen, Hlablen. reflexivity.
  - rewrite <- (dedup_fixed seeds Hnd), <- Hdst.
    apply index_rows_inr in Hlabs. destruct Hlabs as [_ Hm].
    apply index_rows_intro, Hm.
Qed.

Lemma training_batch_aligned_witness :
  wf_graph example_graph /\
  exists output_predictions output_labels r',
    (blocks <- NeighborSampler.sample
                 (NeighborSampler.mk example_graph [2%Z; 2%Z]) [4; 6] ;;
     training_batch (@concat nat)
       (SAGENet.mk [fun own neigh => own ++ neigh;
                    fun own neigh => own ++ 99 :: neigh])
       (map (fun i => [i]) (seq 0 12)) (seq 100 12) blocks) rs0 =
      inr ((output_predictions, output_labels), r') /\
    length output_predictions = length output_labels /\
    index_rows (seq 100 12) [4; 6] rs0 = inr (output_labels, rs0).
Proof.
  assert (Hwf : wf_graph example_graph).
  { unfold wf_graph. vm_compute. repeat constructor. }
  split; [exact Hwf |].
  assert (H1 : length (map (fun i : nat => [i]) (seq 0 12)) =
               number_of_nodes example_graph) by reflexivity.
  assert (H2 : length (seq 100 12) = number_of_nodes example_graph)
    by reflexivity.
  assert (H3 : Forall (fun v => v < number_of_nodes example_graph) [4; 6]).
  { change (number_of_nodes example_graph) with 12. repeat constructor. }
  assert (H4 : [2%Z; 2%Z] <> []) by discriminate.
  assert (H5 : NoDup [4; 6]).
  { repeat constructor; simpl; intuition discriminate. }
  assert (H6 : Forall (fun k => (0 <= k)%Z) [2%Z; 2%Z]).
  { repeat constructor; lia. }
  exact (training_batch_aligned (list nat) nat (@concat nat)
           [fun own neigh => own ++ neigh; fun own neigh => own ++ 99 :: neigh]
           example_graph [2%Z; 2%Z] (map (fun i => [i]) (seq 0 12))
           (seq 100 12) [4; 6] rs0 Hwf H1 H2 H3 H5 H4 H6 eq_refl).
Defined.

(** ** Layer-wise inference and minibatches against the whole-graph model *)

Lemma bind_ret_r {A} (m : M A) r : bind m (fun a => ret a) r = m r.
Proof. unfold bind, ret. destruct (m r) as [e | [a r1]]; reflexivity. Qed.

Section WholeGraph.

Variable T : Type.
Variable mean : list T -> T.
Variable g : Graph.
Hypothesis Hwf : wf_graph g.

Lemma all_nodes_in_range :
  Forall (fun v => v < number_of_nodes g) (seq 0 (number_of_nodes g)).
Proof. apply Forall_forall. intros v Hv. apply in_seq in Hv. lia. Qed.

Lemma layer_on_graph_total (conv : Layer T) (h : list T) r :
  length h = number_of_nodes g ->
  exists out, layer_on_graph mean conv g h r = inr (out, r) /\
              length out = number_of_nodes g.
Proof.
  intros Hh.
  destruct (node_updates_total T mean conv g h Hwf Hh _ r all_nodes_in_range)
    as (out & Hout & Hlen).
  exists out. rewrite layer_on_graph_eq by exact Hh.
  rewrite length_seq in Hlen. auto.
Qed.

Lemma whole_graph_forward_total (convs : list (Layer T)) :
  forall (h : list T) r,
    length h = number_of_nodes g ->
    exists out,
      GraphSAGEModel.forward_loop mean convs g h r = inr (out, r) /\
      length out = number_of_nodes g.
Proof.
  induction convs as [| conv rest IH]; intros h r Hh.
  - exists h. split; [reflexivity | exact Hh].
  - destruct (layer_on_graph_total conv h r Hh) as (h' & Hl & Hlen).
    destruct (IH h' r Hlen) as (out & Ho & Holen).
    exists out. split; [| exact Holen].
    cbn [GraphSAGEModel.forward_loop]. unfold bind. rewrite Hl. exact Ho.
Qed.

(** The batches of one layer, followed by anything, are one application of
    the layer over the whole graph, followed by the same. *)
Lemma inference_batches_layer {B} (conv : Layer T) (h : list T) batch_size
      (K : list T -> M B) r :
  length h = number_of_nodes g ->
  0 < batch_size ->
  0 < number_of_nodes g ->
  (new_h_list <- inference_batches mean (FullNeighborBlockSampler.init g 1)
                   conv h (seq 0 (number_of_nodes g)) batch_size
                   (range_step (number_of_nodes g) batch_size) [] ;;
   h' <- torch_cat new_h_list ;; K h') r =
  (h' <- layer_on_graph mean conv g h ;; K h') r.
Proof.
  intros Hh Hb Hn.
  rewrite (bind_cong _ _ _ _
             (inference_batches_eq T mean conv g h Hwf Hh batch_size _ [] r)).
  rewrite bind_bind.
  match goal with
  | |- bind ?m _ _ = _ =>
      transitivity (bind m (fun outs => h' <- torch_cat outs ;; K h') r);
        [apply bind_ext; intros outs r1; reflexivity |]
  end.
  rewrite torch_cat_batches by (apply range_step_nonempty; assumption).
  rewrite (bind_cong _ _ _ _ (layer_on_graph_eq T mean conv g h Hh r)).
  pose proof (batches_partition (seq 0 (number_of_nodes g)) batch_size Hb)
    as P.
  rewrite length_seq in P.
  transitivity
    (bind (mapM (node_update mean conv g h)
                (concat (map (fun s => firstn batch_size
                                         (skipn s (seq 0 (number_of_nodes g))))
                             (range_step (number_of_nodes g) batch_size))))
          K r);
    [| rewrite P; reflexivity].
  rewrite (bind_cong _ _ _ _ (mapM_concat _ _ r)), bind_bind.
  rewrite (bind_cong _ _ _ _ (mapM_map _ _ _ r)).
  apply bind_ext. intros outs r1. reflexivity.
Qed.

Lemma inference_layers_eq (convs : list (Layer T)) batch_size :
  0 < batch_size ->
  0 < number_of_nodes g ->
  forall (h : list T) r,
    length h = number_of_nodes g ->
    inference_layers mean (FullNeighborBlockSampler.init g 1) g batch_size
                     convs h r =
    GraphSAGEModel.forward_loop mean convs g h r.
Proof.
  intros Hb Hn. induction convs as [| conv rest IH]; intros h r Hh.
  - reflexivity.
  - cbn [inference_layers GraphSAGEModel.forward_loop].
    destruct (batch_size =? 0) eqn:E; [apply Nat.eqb_eq in E; lia |].
    rewrite (inference_batches_layer conv h batch_size _ r Hh Hb Hn).
    destruct (layer_on_graph_total conv h r Hh) as (h' & Hl & Hlen).
    unfold bind. rewrite Hl. apply IH, Hlen.
Qed.

End WholeGraph.

(** Layer-wise inference computes the whole-graph model.  For a model with
    any number of layers, on a well-formed graph with at least one node
    and one feature row per node, and with any positive batch size,
    [inference_with_sagenet] returns what [GraphSAGEModel.forward] returns
    when the same layers are applied to the whole graph one after the
    other; both succeed, with one row per node. *)
Theorem inference_equals_whole_graph_model (T : Type) (mean : list T -> T)
        (convs : list (Layer T)) (g : Graph) (h : list T) (batch_size : nat)
        (r : RandomSource) :
  wf_graph g ->
  0 < number_of_nodes g ->
  length h = number_of_nodes g ->
  0 < batch_size ->
  exists out,
    inference_with_sagenet mean (SAGENet.mk convs) g h batch_size r =
      inr (out, r) /\
    GraphSAGEModel.forward mean (GraphSAGEModel.mk convs) g h r =
      inr (out, r) /\
    length out = number_of_nodes g.
Proof.
  intros Hwf Hn Hh Hb.
  destruct (whole_graph_forward_total T mean g Hwf convs h r Hh)
    as (out & Ho & Hlen).
  exists out. split; [| split; [exact Ho | exact Hlen]].
  unfold inference_with_sagenet. cbn [SAGENet.convs].
  rewrite (inference_layers_eq T mean g Hwf convs batch_size Hb Hn h r Hh).
  exact Ho.
Qed.

Lemma inference_equals_whole_graph_model_witness :
  wf_graph example_graph /\
  0 < number_of_nodes example_graph /\
  exists out,
    inference_with_sagenet (@concat nat)
      (SAGENet.mk [fun own neigh => own ++ neigh;
                   fun own neigh => own ++ 99 :: neigh])
      example_graph (map (fun i => [i]) (seq 0 12)) 5 rs0 = inr (out, rs0) /\
    GraphSAGEModel.forward (@concat nat)
      (GraphSAGEModel.mk [fun own neigh => own ++ neigh;
                          fun own neigh => own ++ 99 :: neigh])
      example_graph (map (fun i => [i]) (seq 0 12)) rs0 = inr (out, rs0) /\
    length out = number_of_nodes example_graph.
Proof.
  assert (Hwf : wf_graph example_graph).
  { unfold wf_graph. vm_compute. repeat constructor. }
  assert (Hn : 0 < number_of_nodes example_graph) by (vm_compute; lia).
  split; [exact Hwf |]. split; [exact Hn |].
  assert (H1 : length (map (fun i : nat => [i]) (seq 0 12)) =
               number_of_nodes example_graph) by reflexivity.
  assert (H2 : 0 < 5) by lia.
  exact (inference_equals_whole_graph_model (list nat) (@concat nat)
           [fun own neigh => own ++ neigh; fun own neigh => own ++ 99 :: neigh]
           example_graph (map (fun i => [i]) (seq 0 12)) 5 rs0 Hwf Hn H1 H2).
Defined.

Lemma grow_blocks_indep g sels :
  forall s bs r,
    grow g sels (s, bs) r =
    match grow g sels (s, []) r with
    | inl e => inl e
    | inr ((s', new), r') => inr ((s', new ++ bs), r')
    end.
Proof.
  induction sels as [| sel rest IH]; intros s bs r.
  - reflexivity.
  - cbn [grow fst snd]. unfold bind.
    destruct (gather g sel (dedup s) r) as [e | [sg r1]]; [reflexivity |].
    rewrite (IH _ (to_block sg s :: bs)), (IH _ [to_block sg s]).
    destruct (grow g rest (src_global_ids (to_block sg s), []) r1)
      as [e | [[s' new] r']]; [reflexivity |].
    rewrite <- app_assoc. reflexivity.
Qed.

Lemma mapM_rows {A B} (f : A -> M B) l r :
  forall out,
    mapM f l r = inr (out, r) ->
    (forall a, In a l -> exists y, f a r = inr (y, r)) ->
    forall j a, nth_error l j = Some a ->
                exists y, f a r = inr (y, r) /\ nth_error out j = Some y.
Proof.
  induction l as [| a0 t IH]; intros out H Hall j a Hj.
  - destruct j; discriminate.
  - destruct (Hall a0 (or_introl eq_refl)) as [y0 Hy0].
    simpl in H. unfold bind in H. rewrite Hy0 in H.
    destruct (mapM f t r) as [e | [bs r1]] eqn:Et; [discriminate |].
    unfold ret in H. inversion H; subst out r1. clear H.
    destruct j as [| j].
    + simpl in Hj. inversion Hj; subst a. exists y0. split; [exact Hy0 |].
      reflexivity.
    + simpl in Hj. apply (IH bs eq_refl) with (j := j); [| exact Hj].
      intros x Hx. apply Hall. right. exact Hx.
Qed.

Lemma SAGENet_forward_loop_app (T : Type) (mean : list T -> T)
      (convs1 convs2 : list (Layer T)) :
  forall chain1 chain2 x r,
    length convs1 = length chain1 ->
    SAGENet.forward_loop mean (combine (convs1 ++ convs2) (chain1 ++ chain2))
                         x r =
    (x' <- SAGENet.forward_loop mean (combine convs1 chain1) x ;;
     SAGENet.forward_loop mean (combine convs2 chain2) x') r.
Proof.
  induction convs1 as [| c rest IH]; intros [| b chain1] chain2 x r Hlen;
    try discriminate.
  - reflexivity.
  - cbn [app combine SAGENet.forward_loop]. rewrite bind_bind.
    apply bind_ext. intros y r1. apply IH. simpl in Hlen. lia.
Qed.

Lemma GraphSAGE_forward_loop_app (T : Type) (mean : list T -> T)
      (l1 l2 : list (Layer T)) g :
  forall h r,
    GraphSAGEModel.forward_loop mean (l1 ++ l2) g h r =
    (h' <- GraphSAGEModel.forward_loop mean l1 g h ;;
     GraphSAGEModel.forward_loop mean l2 g h') r.
Proof.
  induction l1 as [| c rest IH]; intros h r.
  - reflexivity.
  - cbn [app GraphSAGEModel.forward_loop]. rewrite bind_bind.
    apply bind_ext. intros y r1. apply IH.
Qed.

Section MinibatchProofs.

Variable T : Type.
Variable mean : list T -> T.
Variable g : Graph.
Hypothesis Hwf : wf_graph g.

(** The rows of the output of a whole-graph layer are the node updates. *)
Lemma rows_of_layer (conv : Layer T) (h h' : list T) ids r :
  length h = number_of_nodes g ->
  layer_on_graph mean conv g h r = inr (h', r) ->
  Forall (fun v => v < number_of_nodes g) ids ->
  mapM (node_update mean conv g h) ids r = index_rows h' ids r.
Proof.
  intros Hh Hl Hids. rewrite layer_on_graph_eq in Hl by exact Hh.
  induction Hids as [| v t Hv _ IH]; [reflexivity |].
  assert (Hn : nth_error (seq 0 (number_of_nodes g)) v = Some v).
  { rewrite nth_error_seq. apply Nat.ltb_lt in Hv. rewrite Hv. reflexivity. }
  destruct (mapM_rows _ _ _ _ Hl) with (j := v) (a := v) as (y & Hy & Hrow);
    [| exact Hn |].
  { intros a Ha. apply in_seq in Ha.
    apply (node_update_total T mean conv g h Hwf Hh). lia. }
  cbn [mapM]. unfold index_rows. cbn [mapM]. fold (index_rows h' t).
  unfold bind at 1 3. rewrite Hy, Hrow. cbn [lift_index]. unfold ret at 2.
  apply bind_cong, IH.
Qed.

Lemma minibatch_core (convs : list (Layer T)) :
  forall (h : list T) s s_n chain r h_out x,
    length h = number_of_nodes g ->
    Forall (fun v => v < number_of_nodes g) s ->
    grow g (repeat Full (length convs)) (s, []) r = inr ((s_n, chain), r) ->
    GraphSAGEModel.forward_loop mean convs g h r = inr (h_out, r) ->
    index_rows h (dedup s_n) r = inr (x, r) ->
    SAGENet.forward_loop mean (combine convs chain) x r =
    index_rows h_out (dedup s) r.
Proof.
  induction convs as [| c convs' IH] using rev_ind;
    intros h s s_n chain r h_out x Hh Hs Hg Hf Hx.
  - simpl in Hg, Hf. apply ret_inr in Hg. apply ret_inr in Hf.
    destruct Hg as [Hg _]. destruct Hf as [<- _].
    inversion Hg; subst s_n chain. rewrite Hx. reflexivity.
  - rewrite length_app, Nat.add_1_r in Hg. cbn [repeat grow fst snd] in Hg.
    apply bind_inr in Hg. destruct Hg as (sg & q & Hgath & Hg).
    assert (Hr : forallb (fun v => v <? number_of_nodes g) (dedup s) = true).
    { apply forallb_forall. intros v Hv. apply (proj1 (dedup_In _ _)) in Hv.
      rewrite Forall_forall in Hs. apply Nat.ltb_lt, Hs, Hv. }
    rewrite gather_Full_eq, Hr in Hgath. inversion Hgath; subst sg q.
    clear Hgath.
    set (b := to_block (in_edges g (dedup s)) s) in *.
    rewrite grow_blocks_indep in Hg.
    destruct (grow g (repeat Full (length convs')) (src_global_ids b, []) r)
      as [e | [[s1 chain'] r1]] eqn:Hg'; [discriminate |].
    inversion Hg; subst s1 chain r1. clear Hg.
    rewrite GraphSAGE_forward_loop_app in Hf.
    destruct (whole_graph_forward_total T mean g Hwf convs' h r Hh)
      as (h1 & Hh1 & Hlen1).
    unfold bind in Hf. rewrite Hh1 in Hf.
    cbn [GraphSAGEModel.forward_loop] in Hf.
    rewrite bind_ret_r in Hf.
    assert (Hsrc : Forall (fun v => v < number_of_nodes g) (src_global_ids b)).
    { apply Forall_forall. intros v Hv. apply to_block_src_In in Hv.
      destruct Hv as [Hv | Hv].
      - rewrite Forall_forall in Hs. apply Hs, Hv.
      - apply in_map_iff in Hv. destruct Hv as (e & <- & He).
        apply in_edges_subset in He. unfold wf_graph in Hwf.
        rewrite Forall_forall in Hwf. apply (Hwf e He). }
    pose proof (IH h (src_global_ids b) s_n chain' r h1 x Hh Hsrc Hg' Hh1 Hx)
      as Hpre.
    rewrite (dedup_fixed (src_global_ids b) (to_block_src_NoDup _ _)) in Hpre.
    pose proof (grow_blocks _ _ _ _ _ _ Hg') as (new & Enew & Hnew).
    simpl in Enew. rewrite app_nil_r in Enew. subst new.
    rewrite repeat_length in Hnew.
    rewrite SAGENet_forward_loop_app by (symmetry; exact Hnew).
    rewrite (bind_cong _ _ _ _ Hpre).
    assert (Hd : Forall (fun v => v < number_of_nodes g) (dedup s)).
    { apply Forall_forall. intros v Hv. apply (proj1 (dedup_In _ _)) in Hv.
      rewrite Forall_forall in Hs. apply Hs, Hv. }
    rewrite <- (rows_of_layer c h1 h_out (dedup s) r Hlen1 Hf Hd).
    rewrite <- (batch_output_eq T mean c g h1 Hwf Hlen1 (dedup s) r
                                (dedup_NoDup s) Hd).
    unfold batch_output.
    erewrite (bind_run (FullNeighborBlockSampler.sample _ _))
      by (apply Full_sample_one, Hd).
    cbn [nth_error lift_index]. rewrite bind_ret_l.
    rewrite (dedup_fixed _ (dedup_NoDup s)), to_block_dedup. fold b.
    apply bind_ext. intros x' r'. cbn [combine SAGENet.forward_loop].
    apply bind_ret_r.
Qed.

End MinibatchProofs.

(** Minibatches with full-neighbor blocks are exact.  On a well-formed
    graph with one feature row per node, for a model with at least one
    layer and seeds that are node ids, none given twice: sampling a
    full-neighbor chain with one block per layer, gathering the input rows
    of its first block and running [SAGENet.forward] on the blocks does
    not fail and returns exactly the rows that the whole-graph model
    [GraphSAGEModel.forward] computes for the seeds, in the order of the
    seeds. *)
Theorem minibatch_equals_whole_graph_rows (T : Type) (mean : list T -> T)
        (convs : list (Layer T)) (g : Graph) (h : list T) seeds r :
  wf_graph g ->
  length h = number_of_nodes g ->
  Forall (fun v => v < number_of_nodes g) seeds ->
  NoDup seeds ->
  convs <> [] ->
  exists h_out out,
    GraphSAGEModel.forward mean (GraphSAGEModel.mk convs) g h r =
      inr (h_out, r) /\
    (sampled_blocks <- FullNeighborBlockSampler.sample
                         (FullNeighborBlockSampler.init g (length convs))
                         seeds ;;
     minibatch_forward mean (SAGENet.mk convs) h sampled_blocks) r =
      inr (out, r) /\
    index_rows h_out seeds r = inr (out, r).
Proof.
  intros Hwf Hh Hs Hnds Hne.
  destruct (whole_graph_forward_total T mean g Hwf convs h r Hh)
    as (h_out & Hout & Hlen).
  assert (Hsels : Forall good_selector (repeat Full (length convs))).
  { apply Forall_forall. intros sel Hin. apply repeat_spec in Hin.
    subst sel. apply Full_good. }
  destruct (grow_total g _ (seeds, []) r Hwf Hsels Hs)
    as ([s_n chain] & r' & Hg).
  assert (Er : r' = r).
  { pose proof (grow_Full_stateless g (length convs) (seeds, []) r r) as E.
    rewrite Hg in E. simpl in E. inversion E. reflexivity. }
  subst r'.
  assert (Hn : repeat Full (length convs) <> []).
  { destruct convs; [congruence | discriminate]. }
  destruct (grow_chain_ends _ _ _ _ _ _ _ Hg Hn)
    as (Hclen & b0 & bl & extra & H0 & _ & _ & _).
  destruct (grow_keeps_prefix _ _ _ _ _ _ _ _ Hg Hn) as [Hnd _].
  pose proof (grow_in_range g _ (seeds, []) _ _ _ Hwf Hsels Hs Hg) as Hrange.
  cbn [fst] in Hrange.
  pose proof (grow_front _ _ _ _ _ _ _ Hg) as Hfront.
  destruct chain as [| c0 crest]; [discriminate |].
  simpl in H0. inversion H0; subst c0. clear H0. subst s_n.
  assert (Hin : Forall (fun i => i < length h) (src_global_ids b0))
    by (rewrite Hh; exact Hrange).
  destruct (index_rows_total h _ r Hin) as (x & Hx & _).
  assert (Hx' : index_rows h (dedup (src_global_ids b0)) r = inr (x, r))
    by (rewrite (dedup_fixed _ Hnd); exact Hx).
  pose proof (minibatch_core T mean g Hwf convs h seeds _ _ r h_out x
                             Hh Hs Hg Hout Hx') as Hcore.
  assert (Hd : Forall (fun i => i < length h_out) (dedup seeds)).
  { rewrite Hlen. apply Forall_forall. intros v Hv.
    apply (proj1 (dedup_In _ _)) in Hv. rewrite Forall_forall in Hs.
    apply Hs, Hv. }
  destruct (index_rows_total h_out _ r Hd) as (out & Ho & _).
  exists h_out, out. split; [exact Hout |].
  split; [| rewrite (dedup_fixed seeds Hnds) in Ho; exact Ho].
  unfold FullNeighborBlockSampler.sample. rewrite bind_bind.
  unfold bind at 1. rewrite Full_iterate_grow.
  cbn [FullNeighborBlockSampler.g FullNeighborBlockSampler.num_layers].
  rewrite Hg. rewrite bind_ret_l. cbn [snd].
  unfold minibatch_forward. cbn [nth_error lift_index]. rewrite bind_ret_l.
  unfold bind. rewrite Hx. unfold SAGENet.forward. cbn [SAGENet.convs].
  rewrite Hcore. exact Ho.
Qed.

Lemma minibatch_equals_whole_graph_rows_witness :
  wf_graph example_graph /\
  exists h_out out,
    GraphSAGEModel.forward (@concat nat)
      (GraphSAGEModel.mk [fun own neigh => own ++ neigh;
                          fun own neigh => own ++ 99 :: neigh])
      example_graph (map (fun i => [i]) (seq 0 12)) rs0 = inr (h_out, rs0) /\
    (sampled_blocks <- FullNeighborBlockSampler.sample
                         (FullNeighborBlockSampler.init example_graph 2)
                         [4; 6] ;;
     minibatch_forward (@concat nat)
       (SAGENet.mk [fun own neigh => own ++ neigh;
                    fun own neigh => own ++ 99 :: neigh])
       (map (fun i => [i]) (seq 0 12)) sampled_blocks) rs0 = inr (out, rs0) /\
    index_rows h_out [4; 6] rs0 = inr (out, rs0).
Proof.
  assert (Hwf : wf_graph example_graph).
  { unfold wf_graph. vm_compute. repeat constructor. }
  split; [exact Hwf |].
  assert (H1 : length (map (fun i : nat => [i]) (seq 0 12)) =
               number_of_nodes example_graph) by reflexivity.
  assert (H2 : Forall (fun v => v < number_of_nodes example_graph) [4; 6]).
  { change (number_of_nodes example_graph) with 12. repeat constructor. }
  assert (H3 : [(fun own neigh : list nat => own ++ neigh);
                (fun own neigh : list nat => own ++ 99 :: neigh)] <> [])
    by discriminate.
  assert (H4 : NoDup [4; 6]).
  { repeat constructor; simpl; intuition discriminate. }
  exact (minibatch_equals_whole_graph_rows (list nat) (@concat nat)
           [fun own neigh => own ++ neigh; fun own neigh => own ++ 99 :: neigh]
           example_graph (map (fun i => [i]) (seq 0 12)) [4; 6] rs0
           Hwf H1 H2 H4 H3).
Defined.

(** ** Too few feature rows *)

Lemma mapM_error {A B} (f : A -> M B) (E : error) l :
  (forall a r e, f a r = inl e -> e = E) ->
  forall r e, mapM f l r = inl e -> e = E.
Proof.
  intros Hf. induction l as [| a t IH]; intros r e H; simpl in H.
  - discriminate.
  - unfold bind in H. destruct (f a r) as [e1 | [b r1]] eqn:Ea.
    + inversion H; subst. apply (Hf _ _ _ Ea).
    + destruct (mapM f t r1) as [e2 | [bs r2]] eqn:Et; [| discriminate].
      inversion H; subst. apply (IH _ _ Et).
Qed.

Lemma lift_index_error {A} (x : option A) r e :
  lift_index x r = inl e -> e = IndexError.
Proof. destruct x; simpl; intros H; inversion H; reflexivity. Qed.

Lemma index_rows_error {T} (h : list T) ids r e :
  index_rows h ids r = inl e -> e = IndexError.
Proof.
  unfold index_rows. apply mapM_error. intros a r0 e0.
  apply lift_index_error.
Qed.

Lemma index_rows_bound {T} (h rows : list T) ids r r' :
  index_rows h ids r = inr (rows, r') ->
  Forall (fun i => i < length h) ids.
Proof.
  intros H. apply index_rows_inr in H. destruct H as [_ H].
  revert rows H. induction ids as [| i t IH]; intros [| x xs] H;
    simpl in H; try discriminate; constructor.
  - inversion H as [[Hi Ht]]. apply nth_error_Some. congruence.
  - inversion H as [[Hi Ht]]. apply (IH xs Ht).
Qed.

Lemma index_rows_length {T} (h rows : list T) ids r r' :
  index_rows h ids r = inr (rows, r') -> length rows = length ids.
Proof.
  intros H. apply index_rows_inr in H. destruct H as [_ H].
  apply (f_equal (@length _)) in H. rewrite !length_map in H.
  symmetry. exact H.
Qed.

Lemma propagate_error (T : Type) (mean : list T -> T) (layer : Layer T)
      b (h : list T) r e :
  length h = number_of_src_nodes b ->
  number_of_dst_nodes b <= number_of_src_nodes b ->
  SAGENet.propagate mean b h layer r = inl e -> e = IndexError.
Proof.
  intros Hs Hle. unfold SAGENet.propagate.
  rewrite forward_as_rows by (try rewrite length_firstn; lia).
  apply mapM_error. clear r e. intros j r e H.
  unfold block_node_update, bind in H.
  destruct (lift_index (nth_error (firstn (number_of_dst_nodes b) h) j) r)
    as [e1 | [own r1]] eqn:E1.
  - inversion H; subst. apply (lift_index_error _ _ _ E1).
  - destruct (index_rows h
                (map fst (filter (fun e0 => snd e0 =? j) (block_edges b))) r1)
      as [e2 | [ms r2]] eqn:E2; [| discriminate].
    inversion H; subst. apply (index_rows_error _ _ _ _ E2).
Qed.

Section ShortFeatures.

Variable T : Type.
Variable mean : list T -> T.
Variable g : Graph.
Variable conv : Layer T.
Variable h : list T.
Variable batch_size : nat.

Lemma inference_batches_short starts :
  forall acc r,
    match inference_batches mean (FullNeighborBlockSampler.init g 1) conv h
                            (seq 0 (number_of_nodes g)) batch_size starts
                            acc r with
    | inl e => e = IndexError
    | inr _ =>
        forall s v,
          In s starts ->
          In v (firstn batch_size (skipn s (seq 0 (number_of_nodes g)))) ->
          v < length h
    end.
Proof.
  induction starts as [| s rest IH]; intros acc r.
  - simpl. intros s v [].
  - cbn [inference_batches].
    set (batch := firstn batch_size (skipn s (seq 0 (number_of_nodes g)))).
    assert (Hr : Forall (fun v => v < number_of_nodes g) batch).
    { apply Forall_forall. intros v Hv. apply In_firstn_skipn in Hv.
      apply in_seq in Hv. lia. }
    erewrite (bind_run (FullNeighborBlockSampler.sample _ _))
      by (apply Full_sample_one, Hr).
    cbn [nth_error lift_index]. rewrite bind_ret_l.
    set (b := to_block (in_edges g (dedup batch)) batch).
    unfold bind at 1.
    destruct (index_rows h (src_global_ids b) r) as [e | [h_input r1]] eqn:Ei.
    { apply (index_rows_error _ _ _ _ Ei). }
    unfold bind at 1.
    destruct (SAGENet.propagate mean b h_input conv r1) as [e | [new_h r2]]
      eqn:Ep.
    { apply (propagate_error _ _ _ _ _ _ _ (index_rows_length _ _ _ _ _ Ei))
        in Ep; [exact Ep |].
      unfold b, number_of_dst_nodes, number_of_src_nodes.
      destruct (to_block_src_extends (in_edges g (dedup batch)) batch)
        as [extra Hsrc].
      rewrite Hsrc, to_block_dst, length_app. lia. }
    specialize (IH (acc ++ [new_h]) r2).
    destruct (inference_batches _ _ _ _ _ _ rest _ r2) as [e | res];
      [exact IH |].
    intros s' v [<- | Hs'] Hv.
    + apply index_rows_bound in Ei. rewrite Forall_forall in Ei. apply Ei.
      apply to_block_src_In. left. exact Hv.
    + apply (IH s' v Hs' Hv).
Qed.

End ShortFeatures.

(** With fewer feature rows than nodes, layer-wise inference of a model
    with at least one layer raises [IndexError], whatever the graph and
    the positive batch size: it never returns rows computed from a
    partial feature table. *)
Theorem inference_needs_all_rows (T : Type) (mean : list T -> T)
        (conv : Layer T) (rest : list (Layer T)) (g : Graph) (h : list T)
        (batch_size : nat) r :
  0 < batch_size ->
  length h < number_of_nodes g ->
  inference_with_sagenet mean (SAGENet.mk (conv :: rest)) g h batch_size r =
  inl IndexError.
Proof.
  intros Hb Hh. unfold inference_with_sagenet.
  cbn [SAGENet.convs inference_layers].
  destruct (batch_size =? 0) eqn:E; [apply Nat.eqb_eq in E; lia |].
  unfold bind at 1.
  pose proof (inference_batches_short T mean g conv h batch_size
                (range_step (number_of_nodes g) batch_size) [] r) as H.
  destruct (inference_batches _ _ _ _ _ _ _ _ r) as [e | res];
    [rewrite H; reflexivity | exfalso].
  pose proof (batches_partition (seq 0 (number_of_nodes g)) batch_size Hb) as P.
  rewrite length_seq in P.
  assert (Hv : In (length h) (seq 0 (number_of_nodes g)))
    by (apply in_seq; lia).
  rewrite <- P in Hv. apply in_concat in Hv.
  destruct Hv as (batch & Hbatch & Hin). apply in_map_iff in Hbatch.
  destruct Hbatch as (s & <- & Hs).
  specialize (H s (length h) Hs Hin). lia.
Qed.

Lemma inference_needs_all_rows_witness :
  0 < 5 /\
  inference_with_sagenet (@concat nat)
    (SAGENet.mk [fun own neigh => own ++ neigh]) example_graph
    (map (fun i => [i]) (seq 0 11)) 5 rs0 = inl IndexError.
Proof.
  split; [lia |].
  assert (H1 : 0 < 5) by lia.
  assert (H2 : length (map (fun i : nat => [i]) (seq 0 11)) <
               number_of_nodes example_graph).
  { change (number_of_nodes example_graph) with 12. simpl. lia. }
  exact (inference_needs_all_rows (list nat) (@concat nat)
           (fun own neigh => own ++ neigh) [] example_graph
           (map (fun i => [i]) (seq 0 11)) 5 rs0 H1 H2).
Defined.

Lemma sampling_succeeds_witness :
  wf_graph example_graph /\
  Forall (fun k => (0 <= k)%Z) [3%Z; 1%Z] /\
  exists chain r',
    NeighborSampler.sample (NeighborSampler.mk example_graph [3%Z; 1%Z])
                           [11; 0] rs0 = inr (chain, r').
Proof.
  assert (Hwf : wf_graph example_graph).
  { unfold wf_graph. vm_compute. repeat constructor. }
  assert (Hk : Forall (fun k => (0 <= k)%Z) [3%Z; 1%Z]).
  { repeat constructor; lia. }
  split; [exact Hwf |]. split; [exact Hk |].
  assert (Hr : Forall (fun v => v < number_of_nodes example_graph) [11; 0]).
  { change (number_of_nodes example_graph) with 12. repeat constructor. }
  exact (proj2 (sampling_succeeds example_graph [11; 0] Hwf Hr)
               [3%Z; 1%Z] rs0 Hk).
Defined.
